(** * pyvmomi-tools: the vSphere credential store reader

    A shallow embedding of [pyvmomi_tools/extensions/credstore.py]
    (classes [PasswordEntry] and [VICredStore]) and the properties of its
    hash function, its password de-obfuscation and its host-keyed store.

    Python values are modelled as follows.
    - a [str] is the list of its Unicode code points, each an integer
      ([ord] is the identity, [chr] checks the range of code points);
    - [bytes] is a list of integers in [0, 256);
    - Python's unbounded [int] is [Z], with [&], [|], [~], [^] and [%]
      as [Z.land], [Z.lor], [Z.lnot], [Z.lxor] and [Z.modulo];
    - an exception is the [Raise] branch of the [result] type;
    - a [dict] is an association list in insertion order. *)

From stdpp Require Import base list sorting strings.
From Stdlib Require Import ZArith Lia.

Open Scope Z_scope.

(** ** The Python runtime the module relies on *)

Module Py.

Definition str := list Z.
Definition bytes := list Z.

(** The exceptions that the modelled code can raise. *)
Inductive exn : Type :=
| ValueError
| binascii_Error
| UnicodeDecodeError
| HostNotFoundException.

Inductive result (A : Type) : Type :=
| OK (a : A)
| Raise (e : exn).
Arguments OK {A} a.
Arguments Raise {A} e.

Definition bind {A B : Type} (m : result A) (k : A -> result B) : result B :=
  match m with
  | OK a => k a
  | Raise e => Raise e
  end.

Definition is_ok {A : Type} (m : result A) : bool :=
  match m with OK _ => true | Raise _ => false end.

(** A [str] literal of ASCII characters. *)
Definition lit (s : string) : str :=
  map (fun a => Z.of_N (Ascii.N_of_ascii a)) (String.list_ascii_of_string s).

Definition ord (c : Z) : Z := c.

(** [chr(i)] raises [ValueError] outside [range(0x110000)]. *)
Definition chr (i : Z) : result Z :=
  if (0 <=? i) && (i <? 0x110000) then OK i else Raise ValueError.

(** [s.encode('ascii')], as [base64.b64decode] applies it to a [str]
    argument: any character above 127 is a [ValueError]. *)
Fixpoint encode_ascii (s : str) : result bytes :=
  match s with
  | [] => OK []
  | c :: r =>
      if (0 <=? c) && (c <? 128)
      then bind (encode_ascii r) (fun bs => OK (c :: bs))
      else Raise ValueError
  end.

(** The base64 alphabet: value of a character, 255 when it has none. *)
Definition table_a2b_base64 (c : Z) : Z :=
  if (65 <=? c) && (c <=? 90) then c - 65
  else if (97 <=? c) && (c <=? 122) then c - 71
  else if (48 <=? c) && (c <=? 57) then c + 4
  else if c =? 43 then 62
  else if c =? 47 then 63
  else 255.

Definition table_b2a_base64 (v : Z) : Z :=
  if v <? 26 then v + 65
  else if v <? 52 then v + 71
  else if v <? 62 then v - 4
  else if v =? 62 then 43
  else 47.

Definition BASE64_PAD : Z := 61.

(** [binascii.a2b_base64] in its default, non-strict mode: characters
    outside the alphabet are skipped, a complete pad sequence ends the
    input, and an incomplete last quad is an error.  The state is the
    position in the current quad, the bits left over from the previous
    character, the number of pads seen and the output so far. *)
Fixpoint a2b_loop (ascii_data : bytes) (quad_pos leftchar pads : Z)
    (bin_data : bytes) : result bytes :=
  match ascii_data with
  | [] => if quad_pos =? 0 then OK bin_data else Raise binascii_Error
  | this_ch :: rest =>
      if this_ch =? BASE64_PAD then
        if 2 <=? quad_pos then
          if 4 <=? quad_pos + (pads + 1) then OK bin_data
          else a2b_loop rest quad_pos leftchar (pads + 1) bin_data
        else a2b_loop rest quad_pos leftchar pads bin_data
      else
        let this_ch := table_a2b_base64 this_ch in
        if 64 <=? this_ch then a2b_loop rest quad_pos leftchar pads bin_data
        else
          match quad_pos with
          | 0 => a2b_loop rest 1 this_ch 0 bin_data
          | 1 => a2b_loop rest 2 (this_ch mod 16) 0
                   (bin_data ++ [(leftchar * 4 + this_ch / 16) mod 256])
          | 2 => a2b_loop rest 3 (this_ch mod 4) 0
                   (bin_data ++ [(leftchar * 16 + this_ch / 4) mod 256])
          | _ => a2b_loop rest 0 0 0
                   (bin_data ++ [(leftchar * 64 + this_ch) mod 256])
          end
  end.

Definition a2b_base64 (data : bytes) : result bytes :=
  a2b_loop data 0 0 0 [].

(** [base64.b64decode(s)] for a [str] argument [s]. *)
Definition b64decode (s : str) : result bytes :=
  bind (encode_ascii s) a2b_base64.

(** [base64.b64encode(bs).decode('ascii')]. *)
Fixpoint b64encode (bs : bytes) : str :=
  match bs with
  | [] => []
  | [b1] =>
      [table_b2a_base64 (b1 / 4); table_b2a_base64 (b1 mod 4 * 16);
       BASE64_PAD; BASE64_PAD]
  | [b1; b2] =>
      [table_b2a_base64 (b1 / 4);
       table_b2a_base64 (b1 mod 4 * 16 + b2 / 16);
       table_b2a_base64 (b2 mod 16 * 4); BASE64_PAD]
  | b1 :: b2 :: b3 :: r =>
      table_b2a_base64 (b1 / 4)
      :: table_b2a_base64 (b1 mod 4 * 16 + b2 / 16)
      :: table_b2a_base64 (b2 mod 16 * 4 + b3 / 64)
      :: table_b2a_base64 (b3 mod 64)
      :: b64encode r
  end.

Definition is_cont (b : Z) : bool := (0x80 <=? b) && (b <=? 0xBF).

(** [bs.decode('UTF-8')] with the default strict error handler: the
    shortest form only, no surrogates, nothing above U+10FFFF. *)
Fixpoint decode_utf8 (bs : bytes) : result str :=
  match bs with
  | [] => OK []
  | b0 :: r0 =>
      if (0 <=? b0) && (b0 <? 0x80) then
        bind (decode_utf8 r0) (fun s => OK (b0 :: s))
      else if (0xC2 <=? b0) && (b0 <=? 0xDF) then
        match r0 with
        | b1 :: r1 =>
            if is_cont b1 then
              bind (decode_utf8 r1) (fun s =>
                OK ((b0 - 0xC0) * 64 + (b1 - 0x80) :: s))
            else Raise UnicodeDecodeError
        | _ => Raise UnicodeDecodeError
        end
      else if (0xE0 <=? b0) && (b0 <=? 0xEF) then
        match r0 with
        | b1 :: b2 :: r2 =>
            if ((if b0 =? 0xE0 then 0xA0 else 0x80) <=? b1)
               && (b1 <=? (if b0 =? 0xED then 0x9F else 0xBF))
               && is_cont b2 then
              bind (decode_utf8 r2) (fun s =>
                OK ((b0 - 0xE0) * 4096 + (b1 - 0x80) * 64 + (b2 - 0x80) :: s))
            else Raise UnicodeDecodeError
        | _ => Raise UnicodeDecodeError
        end
      else if (0xF0 <=? b0) && (b0 <=? 0xF4) then
        match r0 with
        | b1 :: b2 :: b3 :: r3 =>
            if ((if b0 =? 0xF0 then 0x90 else 0x80) <=? b1)
               && (b1 <=? (if b0 =? 0xF4 then 0x8F else 0xBF))
               && is_cont b2 && is_cont b3 then
              bind (decode_utf8 r3) (fun s =>
                OK ((b0 - 0xF0) * 262144 + (b1 - 0x80) * 4096
                    + (b2 - 0x80) * 64 + (b3 - 0x80) :: s))
            else Raise UnicodeDecodeError
        | _ => Raise UnicodeDecodeError
        end
      else Raise UnicodeDecodeError
  end.

(** [s.encode('UTF-8')]: a surrogate cannot be encoded. *)
Definition encode_utf8_char (c : Z) : option bytes :=
  if (0 <=? c) && (c <? 0x80) then Some [c]
  else if (0x80 <=? c) && (c <? 0x800) then
    Some [0xC0 + c / 64; 0x80 + c mod 64]
  else if (0xD800 <=? c) && (c <=? 0xDFFF) then None
  else if (0x800 <=? c) && (c <? 0x10000) then
    Some [0xE0 + c / 4096; 0x80 + c / 64 mod 64; 0x80 + c mod 64]
  else if (0x10000 <=? c) && (c <? 0x110000) then
    Some [0xF0 + c / 262144; 0x80 + c / 4096 mod 64;
          0x80 + c / 64 mod 64; 0x80 + c mod 64]
  else None.

Fixpoint encode_utf8 (s : str) : option bytes :=
  match s with
  | [] => Some []
  | c :: r =>
      match encode_utf8_char c, encode_utf8 r with
      | Some bs, Some rs => Some (bs ++ rs)
      | _, _ => None
      end
  end.

(** Comparison of two [str] values, code point by code point. *)
Fixpoint str_leb (s t : str) : bool :=
  match s, t with
  | [], _ => true
  | _ :: _, [] => false
  | a :: s', b :: t' => (a <? b) || ((a =? b) && str_leb s' t')
  end.

Definition str_le (s t : str) : Prop := str_leb s t = true.

#[global] Instance str_le_dec : RelDecision str_le.
Proof. intros s t. unfold str_le. apply _. Defined.

(** [sorted(xs)] on a list of [str]: a stable sort by [<=]. *)
Definition sorted (xs : list str) : list str := merge_sort str_le xs.

(** A [dict] with [str] keys, in insertion order: assigning to a key
    that is present replaces its value in place. *)
Definition dict (V : Type) := list (str * V).

Fixpoint dict_set {V : Type} (d : dict V) (k : str) (v : V) : dict V :=
  match d with
  | [] => [(k, v)]
  | (k', v') :: r =>
      if decide (k' = k) then (k, v) :: r else (k', v') :: dict_set r k v
  end.

Fixpoint dict_get {V : Type} (d : dict V) (k : str) : option V :=
  match d with
  | [] => None
  | (k', v') :: r => if decide (k' = k) then Some v' else dict_get r k
  end.

Definition keys {V : Type} (d : dict V) : list str := map fst d.

End Py.

Import Py.

Notation "'let!' x ':=' m 'in' k" := (bind m (fun x => k))
  (at level 10, x name, m at level 100, k at level 200).

(** ** class PasswordEntry *)

Record PasswordEntry : Type := mkPasswordEntry {
  __host : str;
  __username : str;
  __password : str;
}.

Definition get_user (self : PasswordEntry) : str := __username self.
Definition get_host (self : PasswordEntry) : str := __host self.

Definition boundary : Z := 0x7FFFFFFF.
Definition negative : Z := 0x80000000.

(** The body of the loop of [_compute_hash]. *)
Definition hash_step (hash_value my_char : Z) : Z :=
  let hash_value := hash_value * 31 + ord my_char in
  if negb (Z.land hash_value negative =? 0)
  then Z.lor hash_value (Z.lnot boundary)
  else Z.land hash_value boundary.

Definition _compute_hash (text : str) : Z := fold_left hash_step text 0.

Definition hashmod : Z := 256.

(** The first loop of [_deobfuscate]: position by position, the code
    point of the password against the code point of the key stream. *)
Definition xor_loop (password crypt : str) : list Z :=
  map (fun n => Z.lxor (ord (nth n password 0)) (ord (nth n crypt 0)))
      (seq 0 (length password)).

(** The second loop of [_deobfuscate]: append characters until the first
    zero, where the loop breaks. *)
Fixpoint until_zero (password_final : list Z) (decrypted_pwd : str)
    : result str :=
  match password_final with
  | [] => OK decrypted_pwd
  | ci :: rest =>
      if ci =? 0 then OK decrypted_pwd
      else let! c := chr ci in until_zero rest (decrypted_pwd ++ [c])
  end.

Definition _deobfuscate (self : PasswordEntry) : result str :=
  let! raw := b64decode (__password self) in
  let! password := decode_utf8 raw in
  let hash_value := _compute_hash (__host self ++ __username self) mod hashmod in
  let! key := chr (Z.land hash_value 0xFF) in
  let crypt := repeat key (length password) in
  let password_final := xor_loop password crypt in
  until_zero password_final [].

(** The byte that [_deobfuscate] repeats to make its key stream. *)
Definition key_byte (host username : str) : Z :=
  Z.land (_compute_hash (host ++ username) mod hashmod) 0xFF.

Definition get_pwd (self : PasswordEntry) : result str := _deobfuscate self.

(** [__eq__] compares [hash(self)] with [hash(other)].  The built-in
    [hash] of a [str] differs from one process to the next, and the
    built-in [hash] of an object reduces the integer that its [__hash__]
    returns to the width of a machine word: both are parameters. *)
Section BuiltinHash.

Variable hash_str : str -> Z.
Variable hash_int : Z -> Z.

Definition __hash__ (self : PasswordEntry) : Z :=
  hash_str (__host self) + hash_str (__username self)
  + hash_str (__password self).

(** [other] is [None] when it is not an instance of the class. *)
Definition __eq__ (self : PasswordEntry) (other : option PasswordEntry) : bool :=
  match other with
  | Some other => hash_int (__hash__ self) =? hash_int (__hash__ other)
  | None => false
  end.

End BuiltinHash.

(** ** class VICredStore *)

Record VICredStore : Type := mkVICredStore {
  __hostdata : dict PasswordEntry;
}.

(** [__populate_data], over the list that [_get_pwd_entry_list] returns. *)
Definition __populate_data (pwd_list : list PasswordEntry) : dict PasswordEntry :=
  fold_left (fun new_hostdata entry => dict_set new_hostdata (get_host entry) entry)
            pwd_list [].

(** The part of [__init__] that follows the parsing of the file. *)
Definition build (pwd_list : list PasswordEntry) : VICredStore :=
  mkVICredStore (__populate_data pwd_list).

(** [get_userpwd] returns its value or exception next to the store it
    leaves behind. *)
Definition get_userpwd (self : VICredStore) (hostname : str)
    : result (str * str) * VICredStore :=
  match dict_get (__hostdata self) hostname with
  | None => (Raise HostNotFoundException, self)
  | Some entry => (let! pwd := get_pwd entry in OK (get_user entry, pwd), self)
  end.

(** [list_entries]: the lines printed, in order. *)
Definition list_entries (self : VICredStore) : list str :=
  sorted (keys (__hostdata self)).


(** ** The rest of class PasswordEntry *)

Definition __str__ (self : PasswordEntry) : str :=
  (((((lit "{ Host: " ++ __host self) ++ lit " User: ") ++ __username self)
     ++ lit " Pwd: ") ++ __password self) ++ lit " }".

Definition __unicode__ (self : PasswordEntry) : str := __str__ self.

Definition __repr__ (self : PasswordEntry) : str := __str__ self.

(** ** The rest of class VICredStore *)

(** An element of [xml.etree.ElementTree]: iterating over it gives its
    children in document order, and [text] is [None] when the element has
    no text. *)
#[warnings="-register-all"] Inductive Element : Type :=
| mkElement (tag : str) (text : option str) (children : list Element).

Definition tag (e : Element) : str :=
  match e with mkElement t _ _ => t end.

Definition text (e : Element) : option str :=
  match e with mkElement _ t _ => t end.

Definition children (e : Element) : list Element :=
  match e with mkElement _ _ c => c end.

(** The first loop of [_get_pwd_entry_list]. *)
Definition collect_entries (root : Element) : list Element :=
  fold_left
    (fun tmp_list entry =>
       if decide (tag entry = lit "passwordEntry")
       then tmp_list ++ [entry] else tmp_list)
    (children root) [].

(** The body of its inner loop, on the variables [host], [user], [pwd]. *)
Definition scan_child (vars : option str * option str * option str)
    (child : Element) : option str * option str * option str :=
  let '(host, user, pwd) := vars in
  let host := if decide (tag child = lit "host") then text child else host in
  let user := if decide (tag child = lit "username") then text child else user in
  let pwd := if decide (tag child = lit "password") then text child else pwd in
  (host, user, pwd).

(** The body of its second loop. *)
Definition append_entry (pwdentries : list PasswordEntry) (entry : Element)
    : list PasswordEntry :=
  match fold_left scan_child (children entry) (None, None, None) with
  | (Some host, Some user, Some pwd) =>
      pwdentries ++ [mkPasswordEntry host user pwd]
  | _ => pwdentries
  end.

Definition _get_pwd_entry_list (root : Element) : list PasswordEntry :=
  let tmp_list := collect_entries root in
  fold_left append_entry tmp_list [].

Definition FILE_PATH_UNIX : str := lit "/.vmware/credstore/vicredentials.xml".
Definition FILE_PATH_WIN : str := lit "/VMware/credstore/vicredentials.xml".

(** What [__init__] reads of its surroundings: [os.environ],
    [sys.platform], [os.path.exists] and [xml.etree.ElementTree.parse]
    followed by [getroot], which is [None] when the parser raises. *)
Record World : Type := mkWorld {
  os_environ : dict str;
  _platform : str;
  os_path_exists : str -> bool;
  Et_parse : str -> option Element;
}.

(** The exceptions that leave [__init__], with their arguments. *)
Inductive init_exn : Type :=
| KeyError (key : str)
| Exception (message : str)
| NoCredentialsFileFound (message : str)
| ParseError.

Inductive init_result (A : Type) : Type :=
| Done (a : A)
| Failed (e : init_exn).
Arguments Done {A} a.
Arguments Failed {A} e.

(** The instance that [__init__] leaves: its path, the root of the parsed
    tree and the mapping. *)
Record VICredStoreObject : Type := mkVICredStoreObject {
  __path : str;
  __root : Element;
  __data : VICredStore;
}.

Definition environ_get (w : World) (key : str) : init_result str :=
  match dict_get (os_environ w) key with
  | Some v => Done v
  | None => Failed (KeyError key)
  end.

(** The first statement of [__init__]: the choice of the path. *)
Definition choose_path (w : World) (path : option str) : init_result str :=
  match path with
  | Some path => Done path
  | None =>
      match environ_get w (lit "VI_CREDSTORE") with
      | Done v => Done v
      | Failed _ =>
          if decide (_platform w = lit "linux" \/ _platform w = lit "linux2")
          then match environ_get w (lit "HOME") with
               | Done home => Done (home ++ FILE_PATH_UNIX)
               | Failed e => Failed e
               end
          else if decide (_platform w = lit "win32")
          then match environ_get w (lit "APPDATA") with
               | Done appdata => Done (appdata ++ FILE_PATH_WIN)
               | Failed e => Failed e
               end
          else Failed (Exception
                 ((lit "Unsupported platform! (" ++ _platform w) ++ lit ")"))
      end
  end.

Definition __init__ (w : World) (path : option str)
    : init_result VICredStoreObject :=
  match choose_path w path with
  | Failed e => Failed e
  | Done path =>
      if os_path_exists w path then
        match Et_parse w path with
        | Some root =>
            Done (mkVICredStoreObject path root
                    (mkVICredStore (__populate_data (_get_pwd_entry_list root))))
        | None => Failed ParseError
        end
      else Failed (NoCredentialsFileFound
             ((lit "Credential filename [" ++ path) ++ lit "] doesn't exist!"))
  end.

(** ** samples/virtual_machine_power_cycle_credstore.py *)

Module Sample.




End Sample.

(** ** The specification's vocabulary *)

(** A signed 32-bit integer with wrap-around. *)
Definition wrap32 (v : Z) : Z := (v + 2 ^ 31) mod 2 ^ 32 - 2 ^ 31.

(** The formula of the docstring of [_compute_hash], in Horner form:
    [s[0]*31^(n-1) + s[1]*31^(n-2) + ... + s[n-1]]. *)
Definition poly31 (text : str) : Z :=
  fold_left (fun acc c => acc * 31 + ord c) text 0.

(** The termination rule: the index of the first zero of a buffer, and
    the prefix that stops before it. *)
Fixpoint first_zero (buf : list Z) : option nat :=
  match buf with
  | [] => None
  | c :: r => if c =? 0 then Some 0%nat else option_map S (first_zero r)
  end.

Definition zero_terminated_prefix (buf : list Z) : list Z :=
  match first_zero buf with
  | Some i => firstn i buf
  | None => buf
  end.

(** [decrypt(host, username, password_b64)] is [_deobfuscate] on the
    entry made of the three fields. *)
Definition decrypt (host username password_b64 : str) : result str :=
  _deobfuscate (mkPasswordEntry host username password_b64).

(** Step 4 of the decoding: every character of the decoded password
    field against the key byte. *)
Definition xor_decode (host username password : str) : list Z :=
  map (fun c => Z.lxor (ord c) (key_byte host username)) password.

(** Step 1 of the decoding: base64, then UTF-8. *)
Definition decode_password (password_b64 : str) : result str :=
  let! raw := b64decode password_b64 in decode_utf8 raw.

(** Modelled from the spec: the encoder, which the repository does not
    have (it only reads the credential file).  Each character of the
    plaintext is XOR-ed with the key byte of the host and the username,
    and the result is encoded as UTF-8 and then as base64.  There is no
    obfuscated value when the XOR-ed text cannot be encoded. *)
Definition obfuscate (host username plaintext : str) : option str :=
  match encode_utf8
          (map (fun c => Z.lxor (ord c) (key_byte host username)) plaintext) with
  | Some bs => Some (b64encode bs)
  | None => None
  end.

Definition is_byte (b : Z) : Prop := 0 <= b < 256.

Definition code_point (c : Z) : Prop := 0 <= c < 0x110000.

Definition scalar_value (c : Z) : Prop :=
  code_point c /\ ~ (0xD800 <= c <= 0xDFFF).

(** The specification's [MalformedEntry]: the exceptions of the two
    decoding calls, all of them subclasses of [ValueError]. *)
Definition MalformedEntry (e : exn) : Prop :=
  e = ValueError \/ e = binascii_Error \/ e = UnicodeDecodeError.

(** Base64 as RFC 4648 has it: quads of characters of the alphabet, the
    last one possibly ending in one or two pads, and nothing else. *)
Definition in_alphabet (c : Z) : bool := table_a2b_base64 c <? 64.
Definition is_pad (c : Z) : bool := c =? BASE64_PAD.

Fixpoint valid_base64 (s : str) : bool :=
  match s with
  | [] => true
  | c1 :: c2 :: c3 :: c4 :: r =>
      in_alphabet c1 && in_alphabet c2
      && match r with
         | [] => (in_alphabet c3 && (in_alphabet c4 || is_pad c4))
                 || (is_pad c3 && is_pad c4)
         | _ => in_alphabet c3 && in_alphabet c4 && valid_base64 r
         end
  | _ => false
  end.

(** The sum of a list of integers. *)
Definition list_sum_Z (l : list Z) : Z := fold_right Z.add 0 l.

(** The last entry of a sequence with a given host. *)
Definition last_with_host (h : str) (l : list PasswordEntry)
    : option PasswordEntry :=
  find (fun e => bool_decide (get_host e = h)) (rev l).

(** The text of the last child with a given tag. *)
Definition last_text (t : str) (cs : list Element) : option str :=
  match find (fun c => bool_decide (tag c = t)) (rev cs) with
  | Some c => text c
  | None => None
  end.

(** The entry that a child of the root stands for, if it does. *)
Definition entry_of (e : Element) : option PasswordEntry :=
  if decide (tag e = lit "passwordEntry") then
    match last_text (lit "host") (children e),
          last_text (lit "username") (children e),
          last_text (lit "password") (children e) with
    | Some host, Some user, Some pwd => Some (mkPasswordEntry host user pwd)
    | _, _, _ => None
    end
  else None.

(** ** Examples *)

Definition test_password : str := lit
  "NyYwNzMiMDA0LDEnQwY6EwoWFHsINgUwdCV1cg1wDyUtJBssG3cicRE7MQcVKxp1FhsOHBMrdSASNwoJCXM2cjUaOy0JJXsIFXN2EgAsKzUmeiU6EzIvcisrBAEIdg87IQs7JRI3DRwQMRsAMwIGJw8CAXQuDjslJRERKnEmB0M=".

Definition test_entry : PasswordEntry :=
  mkPasswordEntry (lit "mytesthost") (lit "testuser") test_password.

(** The first twenty characters of the same ciphertext: "testpassword",
    the terminating zero and two characters of padding. *)
Definition short_entry : PasswordEntry :=
  mkPasswordEntry (lit "mytesthost") (lit "testuser") (lit "NyYwNzMiMDA0LDEnQwY6").

Definition bad_entry : PasswordEntry :=
  mkPasswordEntry (lit "badhost") (lit "testuser") (lit "YQ").

Definition entry_for (host : string) : PasswordEntry :=
  mkPasswordEntry (lit host) (lit "testuser") test_password.

(** The document that the test suite writes; the text of an element with
    children is the blank space before its first child. *)
Definition test_version : Element :=
  mkElement (lit "version") (Some (lit "1.0")) [].

Definition test_element : Element :=
  mkElement (lit "passwordEntry") (Some [10; 32; 32; 32; 32])
    [mkElement (lit "host") (Some (lit "mytesthost")) [];
     mkElement (lit "username") (Some (lit "testuser")) [];
     mkElement (lit "password") (Some test_password) []].

Definition test_document : Element :=
  mkElement (lit "viCredentials") (Some [10; 32; 32])
    [test_version; test_element].

(** The surroundings of the test [test_get_userpwd]: VI_CREDSTORE names
    the file that the test has written, and no other file exists. *)
Definition test_world : World :=
  mkWorld [(lit "VI_CREDSTORE", lit "mycredentials.xml")] (lit "linux")
    (fun p => bool_decide (p = lit "mycredentials.xml"))
    (fun p => if decide (p = lit "mycredentials.xml")
              then Some test_document else None).

Definition test_object : VICredStoreObject :=
  mkVICredStoreObject (lit "mycredentials.xml") test_document
    (build [test_entry]).

(** ** Tactics *)

Ltac bool_hyps :=
  repeat match goal with
  | H : (_ && _) = true |- _ => apply andb_prop in H; destruct H
  | H : (_ && _) = false |- _ => apply andb_false_iff in H
  | H : (_ <=? _) = true |- _ => apply Z.leb_le in H
  | H : (_ <=? _) = false |- _ => apply Z.leb_gt in H
  | H : (_ <? _) = true |- _ => apply Z.ltb_lt in H
  | H : (_ <? _) = false |- _ => apply Z.ltb_ge in H
  | H : (_ =? _) = true |- _ => apply Z.eqb_eq in H
  | H : (_ =? _) = false |- _ => apply Z.eqb_neq in H
  end.

Ltac split_if :=
  match goal with
  | |- context [if ?b then _ else _] => destruct b eqn:?
  | H : context [if ?b then _ else _] |- _ => destruct b eqn:?
  end.

Ltac arith := bool_hyps; try (exfalso; Z.div_mod_to_equations; lia).

(** ** Signed 32-bit arithmetic and the hash *)

Section Int32.

Lemma land_negative v :
  Z.land v negative = if Z.testbit v 31 then negative else 0.
Proof.
  apply Z.bits_inj'; intros n Hn.
  rewrite Z.land_spec.
  replace (Z.testbit negative n) with (31 =? n)
    by (symmetry; apply (Z.pow2_bits_eqb 31 n); lia).
  destruct (Z.eqb_spec 31 n) as [<- | Hne].
  - rewrite andb_true_r. now destruct (Z.testbit v 31).
  - rewrite andb_false_r.
    destruct (Z.testbit v 31); [ | now rewrite Z.bits_0 ].
    symmetry. apply (Z.pow2_bits_false 31 n). lia.
Qed.

Lemma bit31_test v :
  negb (Z.land v negative =? 0) = Z.testbit v 31.
Proof.
  rewrite land_negative. now destruct (Z.testbit v 31).
Qed.

Lemma land_boundary v : Z.land v boundary = v mod 2 ^ 31.
Proof. change boundary with (Z.ones 31). apply Z.land_ones. lia. Qed.

Lemma lor_lnot_boundary v :
  Z.lor v (Z.lnot boundary) = v mod 2 ^ 31 - 2 ^ 31.
Proof.
  rewrite <- (Z.lnot_involutive (Z.lor v (Z.lnot boundary))).
  rewrite Z.lnot_lor, Z.lnot_involutive, land_boundary.
  unfold Z.lnot. 
  change (2 ^ 31) with 2147483648.
  Z.div_mod_to_equations. lia.
Qed.

Lemma testbit31_div v :
  Z.testbit v 31 = ((v / 2 ^ 31) mod 2 =? 1).
Proof.
  destruct (Z.testbit v 31) eqn:E.
  - apply Z.testbit_true in E; [ | lia ]. symmetry. now apply Z.eqb_eq.
  - apply Z.testbit_false in E; [ | lia ]. rewrite E. reflexivity.
Qed.

Lemma hash_step_wrap h c : hash_step h c = wrap32 (h * 31 + ord c).
Proof.
  unfold hash_step, wrap32. cbv zeta.
  rewrite bit31_test, testbit31_div.
  set (v := h * 31 + ord c). clearbody v.
  destruct (Z.eqb_spec ((v / 2 ^ 31) mod 2) 1) as [E | E].
  - rewrite lor_lnot_boundary. change (2 ^ 31) with 2147483648 in *.
    change (2 ^ 32) with 4294967296. Z.div_mod_to_equations. lia.
  - rewrite land_boundary. change (2 ^ 31) with 2147483648 in *.
    change (2 ^ 32) with 4294967296. Z.div_mod_to_equations. lia.
Qed.

Lemma wrap32_range v : - 2 ^ 31 <= wrap32 v <= 2 ^ 31 - 1.
Proof.
  unfold wrap32. pose proof (Z.mod_pos_bound (v + 2 ^ 31) (2 ^ 32)). lia.
Qed.

Lemma wrap32_small v : - 2 ^ 31 <= v <= 2 ^ 31 - 1 -> wrap32 v = v.
Proof.
  intros H. unfold wrap32. rewrite Z.mod_small; lia.
Qed.

Lemma wrap32_step a b c :
  wrap32 a = wrap32 b -> wrap32 (a * 31 + c) = wrap32 (b * 31 + c).
Proof.
  unfold wrap32. intros H.
  assert (E : (a + 2 ^ 31) mod 2 ^ 32 = (b + 2 ^ 31) mod 2 ^ 32) by lia.
  f_equal.
  replace (a * 31 + c + 2 ^ 31) with ((a + 2 ^ 31) * 31 + (c - 30 * 2 ^ 31)) by lia.
  replace (b * 31 + c + 2 ^ 31) with ((b + 2 ^ 31) * 31 + (c - 30 * 2 ^ 31)) by lia.
  rewrite (Z.add_mod ((a + _) * 31)), (Z.add_mod ((b + _) * 31)) by lia.
  rewrite (Z.mul_mod (a + _)), (Z.mul_mod (b + _)) by lia.
  now rewrite E.
Qed.

End Int32.

Lemma compute_hash_snoc s c :
  _compute_hash (s ++ [c]) = hash_step (_compute_hash s) c.
Proof. unfold _compute_hash. now rewrite fold_left_app. Qed.

Lemma compute_hash_range s : - 2 ^ 31 <= _compute_hash s <= 2 ^ 31 - 1.
Proof.
  induction s as [ | c s _] using rev_ind.
  - cbn. lia.
  - rewrite compute_hash_snoc, hash_step_wrap. apply wrap32_range.
Qed.

Lemma compute_hash_poly s : _compute_hash s = wrap32 (poly31 s).
Proof.
  induction s as [ | c s IH] using rev_ind.
  - reflexivity.
  - rewrite compute_hash_snoc, hash_step_wrap.
    unfold poly31. rewrite fold_left_app. cbn [fold_left].
    apply wrap32_step. fold (poly31 s). rewrite <- IH.
    apply wrap32_small, compute_hash_range.
Qed.

(** ** The key byte and the two loops of [_deobfuscate] *)

Lemma key_byte_range host username : 0 <= key_byte host username < 256.
Proof.
  unfold key_byte, hashmod. change 0xFF with (Z.ones 8).
  rewrite Z.land_ones by lia. apply Z.mod_pos_bound. lia.
Qed.

Lemma key_byte_mod host username :
  key_byte host username = _compute_hash (host ++ username) mod 256.
Proof.
  unfold key_byte, hashmod. change 0xFF with (Z.ones 8).
  rewrite Z.land_ones by lia. apply Z.mod_small, Z.mod_pos_bound. lia.
Qed.

Lemma chr_code_point c : code_point c -> chr c = OK c.
Proof.
  unfold code_point, chr. intros Hc.
  replace ((0 <=? c) && (c <? 0x110000)) with true; [ reflexivity | ].
  symmetry. apply andb_true_intro.
  split; [ apply Z.leb_le | apply Z.ltb_lt ]; lia.
Qed.

Lemma chr_key_byte host username :
  chr (key_byte host username) = OK (key_byte host username).
Proof.
  apply chr_code_point. pose proof (key_byte_range host username).
  unfold code_point. lia.
Qed.

Lemma lxor_byte_div c k : 0 <= k < 256 -> Z.lxor c k / 256 = c / 256.
Proof.
  intros Hk. change 256 with (2 ^ 8).
  rewrite <- !Z.shiftr_div_pow2 by lia.
  rewrite Z.shiftr_lxor, (Z.shiftr_div_pow2 k) by lia.
  rewrite (Z.div_small k) by (change (2 ^ 8) with 256; lia).
  apply Z.lxor_0_r.
Qed.

Lemma lxor_byte_code_point c k :
  0 <= k < 256 -> code_point c -> code_point (Z.lxor c k).
Proof.
  unfold code_point. intros Hk Hc.
  pose proof (lxor_byte_div c k Hk) as E.
  assert (0 <= Z.lxor c k) by (apply Z.lxor_nonneg; lia).
  Z.div_mod_to_equations. lia.
Qed.

Lemma lxor_cancel c k : Z.lxor (Z.lxor c k) k = c.
Proof. now rewrite Z.lxor_assoc, Z.lxor_nilpotent, Z.lxor_0_r. Qed.

Lemma xor_loop_repeat password k :
  xor_loop password (repeat k (length password))
  = map (fun c => Z.lxor c k) password.
Proof.
  unfold xor_loop, ord.
  set (f := fun n => Z.lxor (nth n password 0) (nth n (repeat k (length password)) 0)).
  set (g := fun c => Z.lxor c k).
  apply (nth_ext _ _ (f 0%nat) (g 0)).
  - now rewrite !List.length_map, List.length_seq.
  - intros n Hn. rewrite List.length_map, List.length_seq in Hn.
    rewrite !List.map_nth, List.seq_nth by lia.
    unfold f, g. cbn [Nat.add].
    now rewrite List.nth_repeat_lt by lia.
Qed.

Lemma first_zero_split buf :
  exists rest,
    buf = zero_terminated_prefix buf ++ rest
    /\ Forall (fun c => c <> 0) (zero_terminated_prefix buf)
    /\ (rest = [] \/ head rest = Some 0).
Proof.
  unfold zero_terminated_prefix.
  induction buf as [ | c r (rest & E & Hnz & Hrest)]; cbn [first_zero].
  - exists []. auto.
  - destruct (Z.eqb_spec c 0) as [-> | Hc].
    + exists (0 :: r). cbn. auto.
    + destruct (first_zero r) as [i | ]; cbn [option_map firstn].
      * exists rest. repeat split; auto. cbn. now f_equal.
      * exists rest. repeat split; auto. cbn. now f_equal.
Qed.

Lemma until_zero_prefix buf acc :
  Forall code_point buf ->
  until_zero buf acc = OK (acc ++ zero_terminated_prefix buf).
Proof.
  unfold zero_terminated_prefix.
  intros H. revert acc. induction H as [ | c r Hc _ IH]; intros acc.
  - cbn. now rewrite app_nil_r.
  - cbn [until_zero first_zero].
    destruct (Z.eqb_spec c 0) as [-> | Hne].
    + cbn. now rewrite app_nil_r.
    + rewrite (chr_code_point c Hc). cbn [bind]. rewrite IH.
      destruct (first_zero r) as [i | ]; cbn [option_map firstn];
        now rewrite <- app_assoc.
Qed.

(** ** UTF-8: the decoder inverts the encoder *)

Section Utf8.

Lemma decode_utf8_code_points_le n :
  forall bs s, (length bs <= n)%nat ->
    decode_utf8 bs = OK s -> Forall code_point s.
Proof.
  induction n as [ | n IH]; intros bs s Hlen.
  - destruct bs; [ | cbn in Hlen; lia ].
    cbn. intros [= <-]. constructor.
  - destruct bs as [ | b0 r0]; [ cbn; intros [= <-]; constructor | ].
    cbn [decode_utf8]. cbn [length] in Hlen.
    repeat (split_if; bool_hyps); try discriminate.
    all: repeat match goal with
         | |- match ?r with [] => _ | _ :: _ => _ end = _ -> _ =>
             destruct r; [ discriminate | cbn [length] in Hlen ]
         end.
    all: repeat (split_if; bool_hyps); try discriminate.
    all: match goal with
         | |- bind (decode_utf8 ?r) _ = _ -> _ =>
             destruct (decode_utf8 r) as [s' | ] eqn:Hr;
             [ cbn [bind]; intros [= <-]; constructor;
               [ unfold code_point, is_cont in *; bool_hyps; lia
               | apply (IH r); [ lia | exact Hr ] ]
             | discriminate ]
         end.
Qed.

Lemma decode_utf8_code_points bs s :
  decode_utf8 bs = OK s -> Forall code_point s.
Proof. apply (decode_utf8_code_points_le (length bs)). lia. Qed.

Lemma encode_utf8_char_bytes c bs :
  encode_utf8_char c = Some bs -> Forall is_byte bs.
Proof.
  unfold encode_utf8_char.
  repeat (split_if; bool_hyps); try discriminate; intros [= <-].
  all: repeat constructor; unfold is_byte; Z.div_mod_to_equations; lia.
Qed.

Lemma decode_encode_utf8_char c bs rest :
  encode_utf8_char c = Some bs ->
  decode_utf8 (bs ++ rest) = bind (decode_utf8 rest) (fun s => OK (c :: s)).
Proof.
  unfold encode_utf8_char.
  repeat (split_if; bool_hyps); try discriminate; intros [= <-].
  all: cbn [app decode_utf8]; unfold is_cont.
  all: repeat (split_if; arith).
  all: try reflexivity.
  all: destruct (decode_utf8 rest); cbn [bind]; [ | reflexivity ].
  all: do 2 f_equal; Z.div_mod_to_equations; lia.
Qed.

Lemma encode_utf8_bytes s bs :
  encode_utf8 s = Some bs -> Forall is_byte bs.
Proof.
  revert bs. induction s as [ | c s IH]; intros bs; cbn [encode_utf8].
  - intros [= <-]. constructor.
  - destruct (encode_utf8_char c) as [cs | ] eqn:Hc; [ | discriminate ].
    destruct (encode_utf8 s) as [rs | ]; [ | discriminate ].
    intros [= <-]. apply Forall_app. split.
    + eapply encode_utf8_char_bytes, Hc.
    + now apply IH.
Qed.

Lemma decode_encode_utf8 s bs :
  encode_utf8 s = Some bs -> decode_utf8 bs = OK s.
Proof.
  revert bs. induction s as [ | c s IH]; intros bs; cbn [encode_utf8].
  - now intros [= <-].
  - destruct (encode_utf8_char c) as [cs | ] eqn:Hc; [ | discriminate ].
    destruct (encode_utf8 s) as [rs | ]; [ | discriminate ].
    intros [= <-].
    rewrite (decode_encode_utf8_char c cs rs Hc), (IH rs eq_refl).
    reflexivity.
Qed.

End Utf8.

(** ** Base64: the decoder inverts the encoder *)

Section Base64.

Lemma table_b2a_ascii v :
  0 <= v < 64 -> 0 <= table_b2a_base64 v < 128.
Proof.
  intros Hv. unfold table_b2a_base64.
  repeat (split_if; bool_hyps); lia.
Qed.

Lemma table_b2a_not_pad v :
  0 <= v < 64 -> (table_b2a_base64 v =? BASE64_PAD) = false.
Proof.
  intros Hv. apply Z.eqb_neq. unfold table_b2a_base64, BASE64_PAD.
  repeat (split_if; bool_hyps); lia.
Qed.

Lemma table_a2b_b2a v :
  0 <= v < 64 -> table_a2b_base64 (table_b2a_base64 v) = v.
Proof.
  intros Hv. unfold table_b2a_base64, table_a2b_base64.
  repeat (split_if; bool_hyps; try lia).
Qed.

(** One character of the alphabet moves the decoder one position on. *)
Lemma a2b_loop_sextet v rest q l p acc :
  0 <= v < 64 ->
  a2b_loop (table_b2a_base64 v :: rest) q l p acc
  = match q with
    | 0 => a2b_loop rest 1 v 0 acc
    | 1 => a2b_loop rest 2 (v mod 16) 0 (acc ++ [(l * 4 + v / 16) mod 256])
    | 2 => a2b_loop rest 3 (v mod 4) 0 (acc ++ [(l * 16 + v / 4) mod 256])
    | _ => a2b_loop rest 0 0 0 (acc ++ [(l * 64 + v) mod 256])
    end.
Proof.
  intros Hv. cbn [a2b_loop].
  rewrite table_b2a_not_pad, table_a2b_b2a by assumption.
  cbv zeta.
  replace (64 <=? v) with false by (symmetry; apply Z.leb_gt; lia).
  reflexivity.
Qed.

Lemma a2b_loop_b64encode_le n :
  forall bs acc, (length bs <= n)%nat -> Forall is_byte bs ->
    a2b_loop (b64encode bs) 0 0 0 acc = OK (acc ++ bs).
Proof.
  induction n as [ | n IH]; intros bs acc Hlen Hbs.
  - destruct bs; [ | cbn in Hlen; lia ]. cbn. now rewrite app_nil_r.
  - destruct bs as [ | b1 [ | b2 [ | b3 r]]].
    + cbn. now rewrite app_nil_r.
    + inversion_clear Hbs as [ | ? ? H1 _]. unfold is_byte in H1.
      cbn [b64encode].
      rewrite !a2b_loop_sextet by (Z.div_mod_to_equations; lia).
      cbn. do 2 f_equal. f_equal. Z.div_mod_to_equations; lia.
    + inversion_clear Hbs as [ | ? ? H1 Hbs'].
      inversion_clear Hbs' as [ | ? ? H2 _]. unfold is_byte in H1, H2.
      cbn [b64encode].
      rewrite !a2b_loop_sextet by (Z.div_mod_to_equations; lia).
      cbn. rewrite <- app_assoc. cbn [app]. do 2 f_equal.
      f_equal; [ | f_equal ]; Z.div_mod_to_equations; lia.
    + inversion_clear Hbs as [ | ? ? H1 Hbs'].
      inversion_clear Hbs' as [ | ? ? H2 Hbs].
      inversion_clear Hbs as [ | ? ? H3 Hr]. unfold is_byte in H1, H2, H3.
      cbn [b64encode].
      rewrite !a2b_loop_sextet by (Z.div_mod_to_equations; lia).
      rewrite IH by (cbn [length] in Hlen; auto; lia).
      rewrite <- !app_assoc. cbn [app]. do 2 f_equal.
      f_equal; [ | f_equal; [ | f_equal ] ]; Z.div_mod_to_equations; lia.
Qed.

Lemma encode_ascii_b64encode_le n :
  forall bs, (length bs <= n)%nat -> Forall is_byte bs ->
    encode_ascii (b64encode bs) = OK (b64encode bs).
Proof.
  assert (Hc : forall v r, 0 <= v < 64 -> encode_ascii r = OK r ->
            encode_ascii (table_b2a_base64 v :: r) = OK (table_b2a_base64 v :: r)).
  { intros v r Hv Hr. cbn [encode_ascii]. rewrite Hr.
    pose proof (table_b2a_ascii v Hv).
    replace ((0 <=? table_b2a_base64 v) && (table_b2a_base64 v <? 128))
      with true; [ reflexivity | ].
    symmetry. apply andb_true_intro.
    split; [ apply Z.leb_le | apply Z.ltb_lt ]; lia. }
  induction n as [ | n IH]; intros bs Hlen Hbs.
  - destruct bs; [ reflexivity | cbn in Hlen; lia ].
  - destruct bs as [ | b1 [ | b2 [ | b3 r]]].
    + reflexivity.
    + inversion_clear Hbs as [ | ? ? H1 _]. unfold is_byte in H1.
      cbn [b64encode].
      repeat (apply Hc; [ Z.div_mod_to_equations; lia | ]). reflexivity.
    + inversion_clear Hbs as [ | ? ? H1 Hbs'].
      inversion_clear Hbs' as [ | ? ? H2 _]. unfold is_byte in H1, H2.
      cbn [b64encode].
      repeat (apply Hc; [ Z.div_mod_to_equations; lia | ]). reflexivity.
    + inversion_clear Hbs as [ | ? ? H1 Hbs'].
      inversion_clear Hbs' as [ | ? ? H2 Hbs].
      inversion_clear Hbs as [ | ? ? H3 Hr]. unfold is_byte in H1, H2, H3.
      cbn [b64encode].
      repeat (apply Hc; [ Z.div_mod_to_equations; lia | ]).
      apply IH; [ cbn [length] in Hlen; lia | assumption ].
Qed.

Lemma b64decode_b64encode bs :
  Forall is_byte bs -> b64decode (b64encode bs) = OK bs.
Proof.
  intros Hbs. unfold b64decode, a2b_base64.
  rewrite (encode_ascii_b64encode_le (length bs)) by auto.
  cbn [bind]. now rewrite (a2b_loop_b64encode_le (length bs)) by auto.
Qed.

End Base64.

(** ** De-obfuscation *)

Section Deobfuscate.

Lemma first_zero_none buf :
  Forall (fun c => c <> 0) buf -> zero_terminated_prefix buf = buf.
Proof.
  unfold zero_terminated_prefix. intros H.
  assert (E : first_zero buf = None); [ | now rewrite E ].
  induction H as [ | c r Hc _ IH]; [ reflexivity | ].
  cbn [first_zero]. destruct (Z.eqb_spec c 0); [ contradiction | ].
  now rewrite IH.
Qed.

Lemma xor_code_points password k :
  0 <= k < 256 -> Forall code_point password ->
  Forall code_point (map (fun c => Z.lxor c k) password).
Proof.
  intros Hk H. induction H; cbn [map]; constructor; auto.
  now apply lxor_byte_code_point.
Qed.

(** What [_deobfuscate] returns once the two decoders have succeeded. *)
Lemma deobfuscate_decoded self raw password :
  b64decode (__password self) = OK raw ->
  decode_utf8 raw = OK password ->
  _deobfuscate self
  = OK (zero_terminated_prefix
          (map (fun c => Z.lxor c (key_byte (__host self) (__username self)))
               password)).
Proof.
  intros Hraw Hpw. unfold _deobfuscate.
  rewrite Hraw. cbn [bind]. rewrite Hpw. cbn [bind]. cbv zeta.
  fold (key_byte (__host self) (__username self)).
  rewrite chr_key_byte. cbn [bind].
  rewrite xor_loop_repeat, until_zero_prefix; [ reflexivity | ].
  apply xor_code_points.
  - apply key_byte_range.
  - eapply decode_utf8_code_points, Hpw.
Qed.

Lemma xor_scalar_value c k :
  0 <= k < 256 -> scalar_value c -> scalar_value (Z.lxor c k).
Proof.
  intros Hk [Hc Hs]. split; [ now apply lxor_byte_code_point | ].
  pose proof (lxor_byte_div c k Hk) as E. unfold code_point in Hc.
  assert (0 <= Z.lxor c k) by (apply Z.lxor_nonneg; lia).
  Z.div_mod_to_equations. lia.
Qed.

Lemma encode_utf8_scalar s :
  Forall scalar_value s -> exists bs, encode_utf8 s = Some bs.
Proof.
  induction 1 as [ | c r [Hc Hs] _ [rs IH]]; [ now exists [] | ].
  cbn [encode_utf8]. rewrite IH. unfold code_point in Hc.
  unfold encode_utf8_char.
  repeat (split_if; bool_hyps); try lia; eauto.
Qed.

(** The encoder is defined on every text of Unicode scalar values. *)
Lemma obfuscate_scalar host username plaintext :
  Forall scalar_value plaintext ->
  exists obfuscated, obfuscate host username plaintext = Some obfuscated.
Proof.
  intros H. unfold obfuscate.
  destruct (encode_utf8_scalar
              (map (fun c => Z.lxor (ord c) (key_byte host username)) plaintext))
    as [bs ->]; [ | eauto ].
  induction H; cbn [map]; constructor; auto.
  apply xor_scalar_value; [ apply key_byte_range | assumption ].
Qed.

End Deobfuscate.

(** ** The dict, the store and the order of the listing *)

Section Dict.
Context {V : Type}.
Implicit Types (d : dict V) (k : str) (v : V).

Lemma dict_get_set_eq d k v : dict_get (dict_set d k v) k = Some v.
Proof.
  induction d as [ | [k' v'] r IH]; cbn.
  - now rewrite decide_True.
  - destruct (decide (k' = k)) as [-> | Hne]; cbn.
    + now rewrite decide_True.
    + now rewrite decide_False.
Qed.

Lemma dict_get_set_ne d k k0 v :
  k0 <> k -> dict_get (dict_set d k v) k0 = dict_get d k0.
Proof.
  intros Hne. induction d as [ | [k' v'] r IH]; cbn.
  - now rewrite decide_False by congruence.
  - destruct (decide (k' = k)) as [-> | Hk]; cbn.
    + now rewrite !decide_False by congruence.
    + destruct (decide (k' = k0)); auto.
Qed.

Lemma dict_get_None d k : dict_get d k = None <-> ~ In k (keys d).
Proof.
  induction d as [ | [k' v'] r IH]; cbn.
  - tauto.
  - destruct (decide (k' = k)) as [-> | Hk].
    + split; [ discriminate | tauto ].
    + rewrite IH. tauto.
Qed.

Lemma dict_get_Some d k : In k (keys d) -> exists v, dict_get d k = Some v.
Proof.
  intros H. destruct (dict_get d k) as [v | ] eqn:E; [ eauto | ].
  now apply dict_get_None in E.
Qed.

Lemma keys_set_In d k v k0 :
  In k0 (keys (dict_set d k v)) <-> k0 = k \/ In k0 (keys d).
Proof.
  induction d as [ | [k' v'] r IH]; cbn.
  - intuition.
  - destruct (decide (k' = k)) as [-> | Hk]; cbn.
    + intuition.
    + fold (keys (dict_set r k v)) (keys r) in *. rewrite IH. intuition.
Qed.

Lemma keys_set_NoDup d k v : NoDup (keys d) -> NoDup (keys (dict_set d k v)).
Proof.
  induction d as [ | [k' v'] r IH]; cbn.
  - intros _. repeat constructor. now rewrite list_elem_of_In.
  - destruct (decide (k' = k)) as [-> | Hk]; cbn; [ auto | ].
    fold (keys (dict_set r k v)) (keys r).
    intros Hnd. apply NoDup_cons in Hnd as [Hin Hnd].
    apply NoDup_cons. split; [ | auto ].
    rewrite list_elem_of_In in *. rewrite keys_set_In. intuition.
Qed.

End Dict.

Section Populate.

Lemma populate_snoc l e :
  __populate_data (l ++ [e]) = dict_set (__populate_data l) (get_host e) e.
Proof. unfold __populate_data. now rewrite fold_left_app. Qed.

Lemma populate_keys l h :
  In h (keys (__populate_data l)) <-> exists e, In e l /\ get_host e = h.
Proof.
  induction l as [ | x l IH] using rev_ind.
  - cbn. split; [ tauto | intros (e & [] & _) ].
  - rewrite populate_snoc, keys_set_In, IH. split.
    + intros [-> | (e & He & <-)].
      * exists x. split; [ apply in_or_app; cbn; auto | reflexivity ].
      * exists e. split; [ apply in_or_app; auto | reflexivity ].
    + intros (e & He & <-). apply in_app_or in He as [He | [-> | []]]; eauto.
Qed.

Lemma populate_NoDup l : NoDup (keys (__populate_data l)).
Proof.
  induction l as [ | x l IH] using rev_ind.
  - constructor.
  - rewrite populate_snoc. now apply keys_set_NoDup.
Qed.

Lemma populate_last l1 e l2 :
  (forall e', In e' l2 -> get_host e' <> get_host e) ->
  dict_get (__populate_data (l1 ++ e :: l2)) (get_host e) = Some e.
Proof.
  induction l2 as [ | x l2 IH] using rev_ind; intros Hl2.
  - rewrite populate_snoc. apply dict_get_set_eq.
  - change (l1 ++ e :: l2 ++ [x]) with (l1 ++ (e :: l2) ++ [x]).
    rewrite app_assoc, populate_snoc.
    rewrite dict_get_set_ne.
    + apply IH. intros e' He'. apply Hl2, in_or_app. auto.
    + intros E. apply (Hl2 x); [ apply in_or_app; cbn; auto | now symmetry ].
Qed.

Lemma populate_other l1 e l2 h :
  h <> get_host e ->
  dict_get (__populate_data (l1 ++ e :: l2)) h
  = dict_get (__populate_data (l1 ++ l2)) h.
Proof.
  intros Hne. induction l2 as [ | x l2 IH] using rev_ind.
  - rewrite populate_snoc, app_nil_r. now apply dict_get_set_ne.
  - change (l1 ++ e :: l2 ++ [x]) with (l1 ++ (e :: l2) ++ [x]).
    rewrite !app_assoc, !populate_snoc.
    destruct (decide (h = get_host x)) as [-> | Hx].
    + now rewrite !dict_get_set_eq.
    + now rewrite !dict_get_set_ne.
Qed.

End Populate.

Section StrOrder.

Lemma str_leb_total s t : str_leb s t = true \/ str_leb t s = true.
Proof.
  revert t. induction s as [ | a s IH]; intros [ | b t]; cbn; auto.
  destruct (IH t) as [H | H]; rewrite H;
    destruct (Z.ltb_spec a b), (Z.ltb_spec b a), (Z.eqb_spec a b),
      (Z.eqb_spec b a); cbn; auto; lia.
Qed.

Lemma str_leb_trans s t u :
  str_leb s t = true -> str_leb t u = true -> str_leb s u = true.
Proof.
  revert t u. induction s as [ | a s IH]; intros [ | b t] [ | c u]; cbn;
    auto; try discriminate.
  intros H1 H2.
  apply orb_true_iff in H1 as [H1 | H1], H2 as [H2 | H2]; bool_hyps;
    apply orb_true_iff.
  - left. apply Z.ltb_lt. lia.
  - left. apply Z.ltb_lt. lia.
  - left. apply Z.ltb_lt. lia.
  - right. apply andb_true_intro. split; [ apply Z.eqb_eq; lia | eauto ].
Qed.

Lemma str_leb_antisym s t :
  str_leb s t = true -> str_leb t s = true -> s = t.
Proof.
  revert t. induction s as [ | a s IH]; intros [ | b t]; cbn;
    auto; try discriminate.
  intros H1 H2.
  apply orb_true_iff in H1 as [H1 | H1], H2 as [H2 | H2]; bool_hyps;
    try lia.
  f_equal; auto.
Qed.

#[local] Instance str_le_total : Total str_le.
Proof. intros s t. apply str_leb_total. Qed.

#[local] Instance str_le_trans : Transitive str_le.
Proof. intros s t u. apply str_leb_trans. Qed.

#[local] Instance str_le_antisym : AntiSymm eq str_le.
Proof. intros s t. apply str_leb_antisym. Qed.

Lemma sorted_Sorted xs : Sorted str_le (sorted xs).
Proof. apply Sorted_merge_sort, _. Qed.

Lemma sorted_Permutation xs : Permutation (sorted xs) xs.
Proof. apply merge_sort_Permutation. Qed.

Lemma sorted_unique xs ys : Permutation xs ys -> sorted xs = sorted ys.
Proof.
  intros H. apply (Sorted_unique str_le); auto using sorted_Sorted.
  now rewrite !sorted_Permutation.
Qed.

End StrOrder.

(** ** The exceptions of the decoders *)

Section Errors.

Lemma encode_ascii_exn s e : encode_ascii s = Raise e -> e = ValueError.
Proof.
  induction s as [ | c r IH]; cbn; [ discriminate | ].
  split_if; [ | congruence ].
  destruct (encode_ascii r); cbn; [ discriminate | ].
  intros [= <-]. now apply IH.
Qed.

Lemma a2b_loop_exn data : forall q l p acc e,
  a2b_loop data q l p acc = Raise e -> e = binascii_Error.
Proof.
  induction data as [ | c r IH]; intros q l p acc e; cbn [a2b_loop].
  - split_if; congruence.
  - cbv zeta. repeat split_if; try discriminate; try apply IH.
    destruct q as [ | [ [ | | ] | [ | | ] | ] | ]; apply IH.
Qed.

Lemma b64decode_exn s e :
  b64decode s = Raise e -> e = ValueError \/ e = binascii_Error.
Proof.
  unfold b64decode, a2b_base64.
  destruct (encode_ascii s) eqn:E; cbn [bind].
  - intros H. right. eapply a2b_loop_exn, H.
  - intros [= <-]. left. eapply encode_ascii_exn, E.
Qed.

Lemma decode_utf8_exn_le n : forall bs e,
  (length bs <= n)%nat -> decode_utf8 bs = Raise e -> e = UnicodeDecodeError.
Proof.
  induction n as [ | n IH]; intros bs e Hlen.
  - destruct bs; [ discriminate | cbn in Hlen; lia ].
  - destruct bs as [ | b0 r0]; [ discriminate | ].
    cbn [decode_utf8]. cbn [length] in Hlen.
    repeat split_if; try congruence.
    all: repeat match goal with
         | |- match ?r with [] => _ | _ :: _ => _ end = _ -> _ =>
             destruct r; [ congruence | cbn [length] in Hlen ]
         end.
    all: repeat split_if; try congruence.
    all: match goal with
         | |- bind (decode_utf8 ?r) _ = _ -> _ =>
             destruct (decode_utf8 r) eqn:Hr; cbn [bind];
             [ discriminate | intros [= <-]; apply (IH r); [ lia | exact Hr ] ]
         end.
Qed.

Lemma decode_password_exn s e :
  decode_password s = Raise e -> MalformedEntry e.
Proof.
  unfold decode_password, MalformedEntry.
  destruct (b64decode s) as [raw | e'] eqn:E; cbn [bind].
  - intros H. right. right. eapply (decode_utf8_exn_le (length raw)), H. lia.
  - intros [= <-]. apply b64decode_exn in E. tauto.
Qed.

Lemma deobfuscate_raises self e :
  decode_password (__password self) = Raise e -> _deobfuscate self = Raise e.
Proof.
  unfold decode_password, _deobfuscate.
  destruct (b64decode (__password self)); cbn [bind]; [ | auto ].
  now intros ->.
Qed.

End Errors.

(** ** The claims *)

(** C1. For host "mytesthost", username "testuser" and the ciphertext of
    the test suite, the decode operation returns exactly "testpassword":
    as [decrypt], as [get_pwd] of the entry, and through [get_userpwd] on
    the store that holds the entry, as [test_get_userpwd] asserts. *)
Theorem deobfuscate_test_vector :
  decrypt (lit "mytesthost") (lit "testuser") test_password
  = OK (lit "testpassword")
  /\ get_pwd test_entry = OK (lit "testpassword")
  /\ fst (get_userpwd (build [test_entry]) (lit "mytesthost"))
     = OK (lit "testuser", lit "testpassword").
Proof. repeat split; vm_compute; reflexivity. Qed.

(** C2. Round trip: for every host, username and plaintext without NUL
    characters, when XOR-ing each character with the key byte of the
    host and the username and encoding the result as UTF-8 and base64
    produces an obfuscated value, decoding that value under the same
    host and username returns the plaintext. *)
Theorem decrypt_obfuscate host username plaintext obfuscated :
  Forall (fun c => c <> 0) plaintext ->
  obfuscate host username plaintext = Some obfuscated ->
  decrypt host username obfuscated = OK plaintext.
Proof.
  intros Hnz. unfold obfuscate, ord.
  set (k := key_byte host username).
  destruct (encode_utf8 (map (fun c => Z.lxor c k) plaintext))
    as [bs | ] eqn:Hbs; [ | discriminate ].
  intros [= <-]. unfold decrypt.
  rewrite (deobfuscate_decoded _ bs (map (fun c => Z.lxor c k) plaintext)).
  - cbn [__host __username]. fold k. rewrite List.map_map.
    rewrite (List.map_ext _ (fun c => c)) by (intros c; apply lxor_cancel).
    rewrite List.map_id. now rewrite first_zero_none.
  - cbn [__password]. apply b64decode_b64encode.
    eapply encode_utf8_bytes, Hbs.
  - now apply decode_encode_utf8.
Qed.

Lemma decrypt_obfuscate_witness :
  decrypt (lit "mytesthost") (lit "testuser") (lit "NyYwNzMiMDA0LDEn")
  = OK (lit "testpassword").
Proof.
  apply (decrypt_obfuscate (lit "mytesthost") (lit "testuser")
           (lit "testpassword")).
  - vm_compute. repeat constructor; discriminate.
  - vm_compute. reflexivity.
Defined.

(** C3. Termination rule: whenever the two decoders accept the password
    field, [_deobfuscate] returns the prefix of the XOR-decoded buffer
    that stops before its first zero: the buffer is the returned string
    followed by a rest that is empty or starts with a zero, the whole
    buffer is returned when it holds no zero, and no character of the
    returned string is zero. *)
Theorem deobfuscate_termination_rule self raw password :
  b64decode (__password self) = OK raw ->
  decode_utf8 raw = OK password ->
  exists pwd rest,
    _deobfuscate self = OK pwd
    /\ xor_decode (__host self) (__username self) password = pwd ++ rest
    /\ Forall (fun c => c <> 0) pwd
    /\ (rest = [] \/ head rest = Some 0)
    /\ (Forall (fun c => c <> 0)
          (xor_decode (__host self) (__username self) password) ->
        pwd = xor_decode (__host self) (__username self) password)
    /\ pwd = zero_terminated_prefix
               (xor_decode (__host self) (__username self) password).
Proof.
  intros Hraw Hpw. unfold xor_decode, ord.
  set (plain := map _ password).
  destruct (first_zero_split plain) as (rest & E & Hnz & Hrest).
  exists (zero_terminated_prefix plain), rest.
  split; [ now apply (deobfuscate_decoded self raw) | ].
  repeat split; auto using first_zero_none.
Qed.

Lemma deobfuscate_termination_rule_witness :
  exists pwd rest,
    _deobfuscate short_entry = OK pwd
    /\ xor_decode (lit "mytesthost") (lit "testuser")
         [55; 38; 48; 55; 51; 34; 48; 48; 52; 44; 49; 39; 67; 6; 58]
       = pwd ++ rest
    /\ Forall (fun c => c <> 0) pwd
    /\ (rest = [] \/ head rest = Some 0).
Proof.
  destruct (deobfuscate_termination_rule short_entry
              [55; 38; 48; 55; 51; 34; 48; 48; 52; 44; 49; 39; 67; 6; 58]
              [55; 38; 48; 55; 51; 34; 48; 48; 52; 44; 49; 39; 67; 6; 58])
    as (pwd & rest & H1 & H2 & H3 & H4 & _).
  - vm_compute. reflexivity.
  - vm_compute. reflexivity.
  - exists pwd, rest. auto.
Defined.

(** C4. For every string, [_compute_hash] lies in the signed 32-bit
    range; after every multiply-add step the accumulator is masked to 31
    bits when bit 31 of the raw value is clear and sign-extended when it
    is set, which is 32-bit wrap-around; the result is a function of the
    characters alone, the wrapped value of the polynomial of the
    docstring; the hash of "" is 0 and the hash of "a" is 97. *)
Theorem compute_hash_signed32 :
  (forall s, - 2 ^ 31 <= _compute_hash s <= 2 ^ 31 - 1)
  /\ (forall s c,
        _compute_hash (s ++ [c])
        = (if Z.testbit (_compute_hash s * 31 + ord c) 31
           then Z.lor (_compute_hash s * 31 + ord c) (Z.lnot 0x7FFFFFFF)
           else Z.land (_compute_hash s * 31 + ord c) 0x7FFFFFFF)
        /\ _compute_hash (s ++ [c]) = wrap32 (_compute_hash s * 31 + ord c))
  /\ (forall s, _compute_hash s = wrap32 (poly31 s))
  /\ _compute_hash (lit "") = 0
  /\ _compute_hash (lit "a") = 97.
Proof.
  split; [ exact compute_hash_range | ].
  split.
  - intros s c. rewrite compute_hash_snoc. split.
    + unfold hash_step. cbv zeta. now rewrite bit31_test.
    + apply hash_step_wrap.
  - split; [ exact compute_hash_poly | ]. split; reflexivity.
Qed.

(** C5. The store built from a finite sequence of entries has each host
    once among its keys, its keys are the hosts of the sequence, and the
    lookup of a host finds the last entry of the sequence with that host
    and decodes with its fields; over two entries with the same host the
    second one is used. *)
Theorem populate_last_wins :
  (forall l, NoDup (keys (__hostdata (build l))))
  /\ (forall l h,
        In h (keys (__hostdata (build l)))
        <-> exists e, In e l /\ get_host e = h)
  /\ (forall l1 e l2,
        (forall e', In e' l2 -> get_host e' <> get_host e) ->
        dict_get (__hostdata (build (l1 ++ e :: l2))) (get_host e) = Some e
        /\ fst (get_userpwd (build (l1 ++ e :: l2)) (get_host e))
           = let! pwd := _deobfuscate e in OK (get_user e, pwd))
  /\ (forall h u1 p1 u2 p2,
        fst (get_userpwd
               (build [mkPasswordEntry h u1 p1; mkPasswordEntry h u2 p2]) h)
        = let! pwd := decrypt h u2 p2 in OK (u2, pwd)).
Proof.
  split; [ | split; [ | split ] ].
  - intros l. apply populate_NoDup.
  - intros l h. apply populate_keys.
  - intros l1 e l2 Hl2. pose proof (populate_last l1 e l2 Hl2) as E.
    split; [ exact E | ]. unfold get_userpwd. cbn [build __hostdata].
    now rewrite E.
  - intros h u1 p1 u2 p2.
    pose proof (populate_last [mkPasswordEntry h u1 p1]
                  (mkPasswordEntry h u2 p2) []) as E.
    cbn [app get_host __host] in E.
    unfold get_userpwd. cbn [build __hostdata].
    rewrite E by (intros ? []). reflexivity.
Qed.

Lemma populate_last_wins_witness :
  fst (get_userpwd
         (build [mkPasswordEntry (lit "mytesthost") (lit "olduser") (lit "YQ==");
                 test_entry; entry_for "other"])
         (lit "mytesthost"))
  = OK (lit "testuser", lit "testpassword").
Proof.
  assert (Hl2 : forall e', In e' [entry_for "other"] ->
                  get_host e' <> get_host test_entry).
  { intros e' [<- | []]. vm_compute. discriminate. }
  destruct (proj1 (proj2 (proj2 populate_last_wins))
              [mkPasswordEntry (lit "mytesthost") (lit "olduser") (lit "YQ==")]
              test_entry [entry_for "other"] Hl2) as [_ H].
  cbn [app] in H. change (get_host test_entry) with (lit "mytesthost") in H.
  rewrite H. vm_compute. reflexivity.
Defined.

(** C6. For every store, [get_userpwd] on a host that is not a key of
    the mapping raises [HostNotFoundException] and leaves the store as it
    was; on a host that is a key it leaves the store as it was and returns
    the username of the entry with the password that [get_pwd] decodes. *)
Theorem get_userpwd_host_not_found :
  (forall self hostname,
      ~ In hostname (keys (__hostdata self)) ->
      get_userpwd self hostname = (Raise HostNotFoundException, self))
  /\ (forall self hostname,
        In hostname (keys (__hostdata self)) ->
        exists entry,
          dict_get (__hostdata self) hostname = Some entry
          /\ snd (get_userpwd self hostname) = self
          /\ fst (get_userpwd self hostname)
             = (let! pwd := get_pwd entry in OK (get_user entry, pwd))
          /\ forall pwd, get_pwd entry = OK pwd ->
               fst (get_userpwd self hostname) = OK (get_user entry, pwd)).
Proof.
  split.
  - intros self hostname H. apply dict_get_None in H.
    unfold get_userpwd. now rewrite H.
  - intros self hostname H. apply dict_get_Some in H as [entry E].
    exists entry. unfold get_userpwd. rewrite E. cbn [fst snd].
    repeat split; auto. intros pwd ->. reflexivity.
Qed.

Lemma get_userpwd_host_not_found_witness :
  get_userpwd (build [test_entry]) (lit "notexistanthost")
  = (Raise HostNotFoundException, build [test_entry]).
Proof.
  apply (proj1 get_userpwd_host_not_found).
  vm_compute. intros [H | []]. discriminate H.
Defined.

(** C7, as stated, fails: a password field with blanks between its quads
    is not valid base64, and yet the decoder skips the blanks and the
    entry decodes to "testpassword". *)
Lemma lenient_base64_counterexample :
  valid_base64 (lit "NyYw NzMi MDA0 LDEn") = false
  /\ decrypt (lit "mytesthost") (lit "testuser") (lit "NyYw NzMi MDA0 LDEn")
     = OK (lit "testpassword").
Proof. split; vm_compute; reflexivity. Qed.

(** C7, amended. For every entry whose password field the base64 decoder
    rejects or whose decoded bytes are not valid UTF-8, [_deobfuscate]
    raises that decoder's exception, a [MalformedEntry]; the store is
    built all the same, the exception comes out of the lookup of that
    host only, and the lookup of any other host is what it is in the store
    without the entry. *)
Theorem malformed_entry_is_local :
  (forall self e,
      decode_password (__password self) = Raise e ->
      _deobfuscate self = Raise e /\ MalformedEntry e)
  /\ (forall l1 bad l2 e,
        decode_password (__password bad) = Raise e ->
        (forall e', In e' l2 -> get_host e' <> get_host bad) ->
        fst (get_userpwd (build (l1 ++ bad :: l2)) (get_host bad)) = Raise e)
  /\ (forall l1 bad l2 h,
        h <> get_host bad ->
        fst (get_userpwd (build (l1 ++ bad :: l2)) h)
        = fst (get_userpwd (build (l1 ++ l2)) h)).
Proof.
  split; [ | split ].
  - intros self e H. split.
    + now apply deobfuscate_raises.
    + eapply decode_password_exn, H.
  - intros l1 bad l2 e H Hl2. unfold get_userpwd. cbn [build __hostdata].
    rewrite (populate_last l1 bad l2 Hl2). cbn [fst]. unfold get_pwd.
    now rewrite (deobfuscate_raises bad e H).
  - intros l1 bad l2 h Hne. unfold get_userpwd. cbn [build __hostdata].
    rewrite (populate_other l1 bad l2 h Hne).
    now destruct (dict_get (__populate_data (l1 ++ l2)) h).
Qed.

Lemma malformed_entry_is_local_witness :
  (_deobfuscate bad_entry = Raise binascii_Error
   /\ MalformedEntry binascii_Error)
  /\ fst (get_userpwd (build [bad_entry; test_entry]) (lit "mytesthost"))
     = OK (lit "testuser", lit "testpassword").
Proof.
  split.
  - apply (proj1 malformed_entry_is_local bad_entry).
    vm_compute. reflexivity.
  - pose proof (proj2 (proj2 malformed_entry_is_local) []
                  bad_entry [test_entry] (lit "mytesthost")) as H.
    cbn [app] in H. rewrite H.
    + vm_compute. reflexivity.
    + vm_compute. discriminate.
Defined.

(** C8. For every store, [list_entries] prints the keys of the mapping,
    all of them, in lexicographic order; the output is the same for two
    stores with the same keys in any order, hence for two stores built
    from the same entries in any order; over the hosts "zeta", "alpha",
    "mid" it is "alpha", "mid", "zeta". *)
Theorem list_entries_sorted :
  (forall self,
      Sorted str_le (list_entries self)
      /\ Permutation (list_entries self) (keys (__hostdata self)))
  /\ (forall s1 s2,
        Permutation (keys (__hostdata s1)) (keys (__hostdata s2)) ->
        list_entries s1 = list_entries s2)
  /\ (forall l1 l2,
        Permutation l1 l2 -> list_entries (build l1) = list_entries (build l2))
  /\ list_entries (build [entry_for "zeta"; entry_for "alpha"; entry_for "mid"])
     = [lit "alpha"; lit "mid"; lit "zeta"].
Proof.
  split; [ | split; [ | split ] ].
  - intros self. split; [ apply sorted_Sorted | apply sorted_Permutation ].
  - intros s1 s2. apply sorted_unique.
  - intros l1 l2 Hp. apply sorted_unique. cbn [build __hostdata].
    apply NoDup_Permutation; try apply populate_NoDup.
    intros h. rewrite !list_elem_of_In, !populate_keys.
    split; intros (e & He & <-); exists e; split; auto.
    + now apply (Permutation_in _ Hp).
    + now apply (Permutation_in _ (Permutation_sym Hp)).
  - vm_compute. reflexivity.
Qed.

Lemma list_entries_sorted_witness :
  list_entries (build [entry_for "zeta"; entry_for "alpha"; entry_for "mid"])
  = list_entries (build [entry_for "alpha"; entry_for "zeta"; entry_for "mid"]).
Proof.
  apply (proj1 (proj2 (proj2 list_entries_sorted))).
  apply perm_swap.
Defined.

(** Two entries that differ by the exchange of host and username compare
    equal, whatever the built-in hash is. *)
Lemma eq_swapped hash_str hash_int h u p :
  __eq__ hash_str hash_int (mkPasswordEntry h u p)
    (Some (mkPasswordEntry u h p)) = true.
Proof.
  unfold __eq__, __hash__. cbn. apply Z.eqb_eq. f_equal. lia.
Qed.

(** Equality looks at the stored password, not at the decoded one: with
    [_compute_hash] in the place of the built-in hash, two entries that
    decode to the same password compare different. *)
Lemma eq_stored_password :
  get_pwd short_entry = get_pwd test_entry
  /\ __eq__ _compute_hash (fun h => h) short_entry (Some test_entry) = false.
Proof. split; vm_compute; reflexivity. Qed.

(** C9, as stated, fails: no built-in hash makes [__eq__] hold exactly
    when host, username and decoded password are equal, since the entries
    ("a", "b", p) and ("b", "a", p) compare equal. *)
Lemma eq_iff_fields_counterexample :
  ~ (exists (hash_str : str -> Z) (hash_int : Z -> Z), forall e1 e2,
        __eq__ hash_str hash_int e1 (Some e2) = true
        <-> __host e1 = __host e2 /\ __username e1 = __username e2
            /\ get_pwd e1 = get_pwd e2).
Proof.
  intros (hash_str & hash_int & H).
  destruct (proj1 (H (mkPasswordEntry (lit "a") (lit "b") test_password)
                     (mkPasswordEntry (lit "b") (lit "a") test_password))
                  (eq_swapped hash_str hash_int _ _ _)) as [E _].
  discriminate E.
Qed.

(** C9, amended. Two entries whose host, username and stored password
    are equal compare equal, and their decoded passwords are equal too;
    an entry is never equal to a value of another type. *)
Theorem eq_same_fields hash_str hash_int e1 e2 :
  __host e1 = __host e2 ->
  __username e1 = __username e2 ->
  __password e1 = __password e2 ->
  __eq__ hash_str hash_int e1 (Some e2) = true
  /\ get_pwd e1 = get_pwd e2
  /\ __eq__ hash_str hash_int e1 None = false.
Proof.
  intros Hh Hu Hp. unfold __eq__, __hash__, get_pwd, _deobfuscate.
  rewrite Hh, Hu, Hp. repeat split. apply Z.eqb_refl.
Qed.

Lemma eq_same_fields_witness :
  __eq__ _compute_hash (fun h => h) test_entry
    (Some (mkPasswordEntry (lit "mytesthost") (lit "testuser") test_password))
  = true.
Proof.
  apply (eq_same_fields _compute_hash (fun h => h) test_entry
           (mkPasswordEntry (lit "mytesthost") (lit "testuser") test_password));
    reflexivity.
Defined.

(** C10. The decode operation depends on host and username through
    their concatenation only: when [h ++ u] and [h' ++ u'] are the same
    string, the key byte is the same and [decrypt] returns the same
    result on every ciphertext. *)
Theorem deobfuscate_concat_only h u h' u' p :
  h ++ u = h' ++ u' ->
  key_byte h u = key_byte h' u' /\ decrypt h u p = decrypt h' u' p.
Proof.
  intros E. unfold decrypt, _deobfuscate, key_byte.
  cbn [__host __username __password]. now rewrite E.
Qed.

Lemma deobfuscate_concat_only_witness :
  decrypt (lit "ab") (lit "c") test_password
  = decrypt (lit "a") (lit "bc") test_password.
Proof.
  apply (deobfuscate_concat_only (lit "ab") (lit "c") (lit "a") (lit "bc")).
  reflexivity.
Defined.

(** ** Further properties of the hash and of the decoding *)

Section HashAlgebra.

Lemma wrap32_mod v : wrap32 v mod 2 ^ 32 = v mod 2 ^ 32.
Proof.
  unfold wrap32. change (2 ^ 31) with 2147483648.
  change (2 ^ 32) with 4294967296. Z.div_mod_to_equations. lia.
Qed.

Lemma wrap32_congr a b : a mod 2 ^ 32 = b mod 2 ^ 32 -> wrap32 a = wrap32 b.
Proof.
  unfold wrap32. change (2 ^ 31) with 2147483648.
  change (2 ^ 32) with 4294967296. intros H.
  Z.div_mod_to_equations. lia.
Qed.

Lemma wrap32_mod256 v : wrap32 v mod 256 = v mod 256.
Proof.
  unfold wrap32. change (2 ^ 31) with 2147483648.
  change (2 ^ 32) with 4294967296. Z.div_mod_to_equations. lia.
Qed.

Lemma poly31_app s t :
  poly31 (s ++ t) = poly31 s * 31 ^ Z.of_nat (length t) + poly31 t.
Proof.
  induction t as [ | c t IH] using rev_ind.
  - rewrite app_nil_r. cbn. lia.
  - rewrite app_assoc. unfold poly31 in *. rewrite !fold_left_app.
    cbn [fold_left]. rewrite <- fold_left_app, IH.
    rewrite List.length_app. cbn [length].
    replace (Z.of_nat (length t + 1)) with (Z.of_nat (length t) + 1) by lia.
    rewrite Z.pow_add_r by lia. lia.
Qed.

End HashAlgebra.

(** X1. The hash of a concatenation is the hash of the first part, shifted
    by as many powers of 31 as the second part has characters, plus the
    polynomial of the second part, with 32-bit wrap-around. *)
Theorem compute_hash_app s t :
  _compute_hash (s ++ t)
  = wrap32 (_compute_hash s * 31 ^ Z.of_nat (length t) + poly31 t).
Proof.
  rewrite !compute_hash_poly, poly31_app.
  apply wrap32_congr.
  rewrite (Z.add_mod (wrap32 _ * _)), (Z.mul_mod (wrap32 _)), wrap32_mod by lia.
  now rewrite <- Z.mul_mod, <- Z.add_mod by lia.
Qed.

(** X2. Moving one unit from a character to 31 units of the next one
    leaves the hash as it is: the hash is not injective ("Aa" and "BB"
    have the same one). *)
Theorem compute_hash_collision s a b t :
  _compute_hash (s ++ [a; b] ++ t) = _compute_hash (s ++ [a + 1; b - 31] ++ t).
Proof.
  rewrite !compute_hash_poly. f_equal.
  unfold poly31, ord. rewrite !fold_left_app. cbn [fold_left].
  f_equal. lia.
Qed.

(** X3. The key byte is the polynomial of host + username modulo 256: the
    32-bit normalisation of the hash has no effect on it. *)
Theorem key_byte_poly31 host username :
  key_byte host username = poly31 (host ++ username) mod 256.
Proof.
  now rewrite key_byte_mod, compute_hash_poly, wrap32_mod256.
Qed.

Lemma decrypt_key_byte h u h' u' p :
  key_byte h u = key_byte h' u' -> decrypt h u p = decrypt h' u' p.
Proof.
  unfold key_byte, decrypt, _deobfuscate. cbn [__host __username __password].
  now intros ->.
Qed.

(** X4. Host and username act on the decoding through the key byte alone:
    two pairs whose polynomials agree modulo 256 decode every password
    field alike, so that there are 256 keys at most. *)
Theorem decrypt_same_key h u h' u' p :
  poly31 (h ++ u) mod 256 = poly31 (h' ++ u') mod 256 ->
  decrypt h u p = decrypt h' u' p.
Proof.
  intros H. apply decrypt_key_byte. now rewrite !key_byte_poly31.
Qed.

Lemma decrypt_same_key_witness :
  decrypt (lit "Aa") (lit "root") test_password
  = decrypt (lit "BB") (lit "root") test_password.
Proof.
  apply (decrypt_same_key (lit "Aa") (lit "root") (lit "BB") (lit "root")).
  vm_compute. reflexivity.
Defined.

Section DecodingMore.

Lemma decode_password_ok self password :
  decode_password (__password self) = OK password ->
  _deobfuscate self
  = OK (zero_terminated_prefix
          (xor_decode (__host self) (__username self) password)).
Proof.
  unfold decode_password.
  destruct (b64decode (__password self)) as [raw | ] eqn:Hraw; cbn [bind];
    [ | discriminate ].
  intros Hpw. now apply (deobfuscate_decoded self raw).
Qed.

Lemma xor_decode_involutive h u s : xor_decode h u (xor_decode h u s) = s.
Proof.
  unfold xor_decode, ord. rewrite List.map_map.
  rewrite (List.map_ext _ (fun c => c)) by (intros c; apply lxor_cancel).
  apply List.map_id.
Qed.

Lemma zero_terminated_prefix_app pre post :
  Forall (fun c => c <> 0) pre ->
  zero_terminated_prefix (pre ++ 0 :: post) = pre.
Proof.
  unfold zero_terminated_prefix.
  induction 1 as [ | c r Hc _ IH]; [ reflexivity | ].
  cbn [app first_zero]. destruct (Z.eqb_spec c 0); [ contradiction | ].
  destruct (first_zero (r ++ 0 :: post)); cbn [option_map firstn];
    now rewrite IH.
Qed.

Lemma a2b_loop_skip data :
  Forall (fun c => in_alphabet c = false) data ->
  a2b_loop data 0 0 0 [] = OK [].
Proof.
  induction 1 as [ | c r Hc _ IH]; [ reflexivity | ].
  cbn [a2b_loop]. destruct (c =? BASE64_PAD); [ exact IH | ].
  cbv zeta. unfold in_alphabet in Hc. apply Z.ltb_ge in Hc.
  replace (64 <=? table_a2b_base64 c) with true
    by (symmetry; now apply Z.leb_le).
  exact IH.
Qed.

Lemma encode_ascii_ok s :
  Forall (fun c => 0 <= c < 128) s -> encode_ascii s = OK s.
Proof.
  induction 1 as [ | c r Hc _ IH]; [ reflexivity | ].
  cbn [encode_ascii]. rewrite IH.
  replace ((0 <=? c) && (c <? 128)) with true; [ reflexivity | ].
  symmetry. apply andb_true_intro.
  split; [ apply Z.leb_le | apply Z.ltb_lt ]; lia.
Qed.

End DecodingMore.

(** X5. [_deobfuscate] raises exactly when one of the two decoders does,
    and then the decoder's exception: the key, the XOR and the cut at the
    first zero never raise.  Hence a lookup raises nothing but
    [HostNotFoundException] and the exceptions of the decoders. *)
Theorem deobfuscate_raises_iff :
  (forall self e,
      _deobfuscate self = Raise e
      <-> decode_password (__password self) = Raise e)
  /\ (forall self hostname e,
        fst (get_userpwd self hostname) = Raise e ->
        e = HostNotFoundException \/ MalformedEntry e).
Proof.
  assert (H : forall self e,
             _deobfuscate self = Raise e
             <-> decode_password (__password self) = Raise e).
  { intros self e. split; [ | apply deobfuscate_raises ].
    destruct (decode_password (__password self)) as [password | e'] eqn:E.
    - rewrite (decode_password_ok self password E). discriminate.
    - rewrite (deobfuscate_raises self e' E). congruence. }
  split; [ exact H | ].
  intros self hostname e. unfold get_userpwd.
  destruct (dict_get (__hostdata self) hostname) as [entry | ]; cbn [fst].
  - unfold get_pwd. destruct (_deobfuscate entry) as [pwd | e'] eqn:E;
      cbn [bind]; [ discriminate | ].
    intros [= <-]. right. apply H in E. eapply decode_password_exn, E.
  - intros [= <-]. now left.
Qed.

(** X6. The format of the credential file: when the decoded password field
    is the XOR of a plaintext without zero, a zero and any padding, the
    plaintext is returned, whatever the padding is. *)
Theorem deobfuscate_padded self plaintext padding :
  Forall (fun c => c <> 0) plaintext ->
  decode_password (__password self)
  = OK (xor_decode (__host self) (__username self) (plaintext ++ 0 :: padding)) ->
  _deobfuscate self = OK plaintext.
Proof.
  intros Hnz H. rewrite (decode_password_ok self _ H).
  now rewrite xor_decode_involutive, zero_terminated_prefix_app.
Qed.

Lemma deobfuscate_padded_witness :
  _deobfuscate short_entry = OK (lit "testpassword").
Proof.
  apply (deobfuscate_padded short_entry (lit "testpassword") [69; 121]).
  - vm_compute. repeat constructor; discriminate.
  - vm_compute. reflexivity.
Defined.

(** X7. A password field of ASCII characters none of which is in the
    base64 alphabet (blanks, line ends, pads) is no error: it decodes to
    the empty password, and so does the empty field. *)
Theorem deobfuscate_blank host username password_b64 :
  Forall (fun c => 0 <= c < 128 /\ in_alphabet c = false) password_b64 ->
  decrypt host username password_b64 = OK [].
Proof.
  intros H. unfold decrypt.
  rewrite (deobfuscate_decoded _ [] []); [ reflexivity | | reflexivity ].
  cbn [__password]. unfold b64decode, a2b_base64.
  rewrite encode_ascii_ok
    by (eapply Forall_impl; [ exact H | intros c [Hc _]; exact Hc ]).
  cbn [bind]. apply a2b_loop_skip.
  eapply Forall_impl; [ exact H | intros c [_ Hc]; exact Hc ].
Qed.

Lemma deobfuscate_blank_witness :
  decrypt (lit "mytesthost") (lit "testuser") (lit " = ") = OK [].
Proof.
  apply deobfuscate_blank. vm_compute.
  repeat constructor; discriminate.
Defined.

Lemma deobfuscate_raises_iff_witness :
  binascii_Error = HostNotFoundException \/ MalformedEntry binascii_Error.
Proof.
  apply (proj2 deobfuscate_raises_iff (build [bad_entry]) (lit "badhost")).
  vm_compute. reflexivity.
Defined.

(** ** Further properties of the representation and of the equality *)

Section StrRepr.

Lemma str_flat self :
  __str__ self
  = lit "{ Host: " ++ __host self
    ++ 32 :: lit "User: " ++ __username self
    ++ 32 :: lit "Pwd: " ++ __password self ++ lit " }".
Proof. unfold __str__. now rewrite <- !app_assoc. Qed.

(** Two texts cut at the first occurrence of a separator. *)
Lemma split_at_first (c : Z) a a' r r' :
  ~ In c a -> ~ In c a' -> a ++ c :: r = a' ++ c :: r' -> a = a' /\ r = r'.
Proof.
  revert a'. induction a as [ | x a IH]; intros [ | x' a'] Ha Ha'; cbn.
  - intros [= <-]. auto.
  - intros [= <- _]. destruct Ha'. now left.
  - intros [= -> _]. destruct Ha. now left.
  - intros [= <- E]. destruct (IH a') as [-> ->]; auto.
    + intros H. apply Ha. now right.
    + intros H. apply Ha'. now right.
Qed.

End StrRepr.

(** X8. The text that [__str__], [__repr__] and [__unicode__] return
    determines the entry as long as host and username hold no blank: two
    such entries with the same text have the same three fields. *)
Theorem str_injective e1 e2 :
  ~ In 32 (__host e1) -> ~ In 32 (__host e2) ->
  ~ In 32 (__username e1) -> ~ In 32 (__username e2) ->
  __repr__ e1 = __repr__ e2 ->
  e1 = e2.
Proof.
  intros Hh1 Hh2 Hu1 Hu2. unfold __repr__. rewrite !str_flat.
  intros E. apply app_inv_head in E.
  apply split_at_first in E as [Eh E]; [ | assumption | assumption ].
  apply app_inv_head in E.
  apply split_at_first in E as [Eu E]; [ | assumption | assumption ].
  apply app_inv_head, app_inv_tail in E.
  destruct e1, e2. cbn in *. congruence.
Qed.

Lemma str_injective_witness :
  test_entry
  = mkPasswordEntry (lit "mytesthost") (lit "testuser") test_password.
Proof.
  apply str_injective; try reflexivity;
    vm_compute; intuition discriminate.
Defined.

Section EqSum.
Variable hash_str : str -> Z.
Variable hash_int : Z -> Z.

Lemma hash_sum self :
  __hash__ hash_str self
  = list_sum_Z (map hash_str [__host self; __username self; __password self]).
Proof. unfold __hash__, list_sum_Z. cbn. lia. Qed.

Lemma list_sum_Z_perm l l' : Permutation l l' -> list_sum_Z l = list_sum_Z l'.
Proof.
  unfold list_sum_Z.
  induction 1 as [ | x l l' _ IH | x y l | l l' l'' _ IH1 _ IH2]; cbn;
    [ reflexivity | | | ]; lia.
Qed.

End EqSum.

(** X9. [__eq__] is an equivalence on entries, whatever the built-in hash
    is: every entry equals itself, the order of the two sides does not
    matter, and equality goes from one entry over a second to a third. *)
Theorem eq_equivalence hash_str hash_int :
  (forall e, __eq__ hash_str hash_int e (Some e) = true)
  /\ (forall e1 e2,
        __eq__ hash_str hash_int e1 (Some e2)
        = __eq__ hash_str hash_int e2 (Some e1))
  /\ (forall e1 e2 e3,
        __eq__ hash_str hash_int e1 (Some e2) = true ->
        __eq__ hash_str hash_int e2 (Some e3) = true ->
        __eq__ hash_str hash_int e1 (Some e3) = true).
Proof.
  unfold __eq__. repeat split.
  - intros e. apply Z.eqb_refl.
  - intros e1 e2. apply Z.eqb_sym.
  - intros e1 e2 e3 H1 H2. apply Z.eqb_eq in H1, H2. apply Z.eqb_eq. congruence.
Qed.

Lemma eq_equivalence_witness :
  __eq__ _compute_hash (fun h => h)
    (mkPasswordEntry (lit "a") (lit "b") (lit "c"))
    (Some (mkPasswordEntry (lit "c") (lit "a") (lit "b"))) = true.
Proof.
  apply (proj2 (proj2 (eq_equivalence _compute_hash (fun h => h)))
           _ (mkPasswordEntry (lit "b") (lit "a") (lit "c")));
    vm_compute; reflexivity.
Defined.

(** X10. [__eq__] does not see which field holds which string: two entries
    whose three fields are the same strings in any order are equal. *)
Theorem eq_permuted_fields hash_str hash_int e1 e2 :
  Permutation [__host e1; __username e1; __password e1]
              [__host e2; __username e2; __password e2] ->
  __eq__ hash_str hash_int e1 (Some e2) = true.
Proof.
  intros Hp. unfold __eq__. apply Z.eqb_eq. f_equal.
  rewrite !hash_sum. apply list_sum_Z_perm. now apply Permutation_map.
Qed.

Lemma eq_permuted_fields_witness :
  __eq__ _compute_hash (fun h => h)
    (mkPasswordEntry (lit "host") (lit "user") (lit "cGFzcw=="))
    (Some (mkPasswordEntry (lit "user") (lit "host") (lit "cGFzcw=="))) = true.
Proof.
  apply (eq_permuted_fields _compute_hash (fun h => h)
           (mkPasswordEntry (lit "host") (lit "user") (lit "cGFzcw=="))
           (mkPasswordEntry (lit "user") (lit "host") (lit "cGFzcw=="))).
  apply perm_swap.
Defined.

(** ** Further properties of the store *)

Section StoreMore.

Lemma find_app {A : Type} (f : A -> bool) l1 l2 :
  find f (l1 ++ l2)
  = match find f l1 with Some x => Some x | None => find f l2 end.
Proof.
  induction l1 as [ | x l1 IH]; cbn; [ reflexivity | ].
  now destruct (f x).
Qed.

Lemma find_is_Some {A : Type} (f : A -> bool) l x :
  In x l -> f x = true -> exists y, find f l = Some y.
Proof.
  induction l as [ | z l IH]; cbn; [ tauto | ].
  intros [-> | Hin] Hx.
  - rewrite Hx. eauto.
  - destruct (f z); eauto.
Qed.

Lemma populate_find l h :
  dict_get (__populate_data l) h = last_with_host h l.
Proof.
  unfold last_with_host.
  induction l as [ | x l IH] using rev_ind; [ reflexivity | ].
  rewrite populate_snoc, rev_app_distr. cbn [rev app find].
  destruct (decide (get_host x = h)) as [<- | Hne].
  - now rewrite dict_get_set_eq, bool_decide_eq_true_2.
  - rewrite dict_get_set_ne by congruence.
    now rewrite bool_decide_eq_false_2.
Qed.

Lemma populate_host l h e :
  dict_get (__populate_data l) h = Some e -> get_host e = h /\ In e l.
Proof.
  rewrite populate_find. unfold last_with_host. intros H.
  apply find_some in H as [Hin Hh].
  apply bool_decide_eq_true in Hh. split; [ exact Hh | ].
  now apply in_rev.
Qed.

Lemma populate_shadowed l1 e l2 h :
  (exists e', In e' l2 /\ get_host e' = get_host e) ->
  dict_get (__populate_data (l1 ++ e :: l2)) h
  = dict_get (__populate_data (l1 ++ l2)) h.
Proof.
  intros (e' & Hin & Hh).
  destruct (decide (h = get_host e)) as [-> | Hne];
    [ | now apply populate_other ].
  rewrite !populate_find. unfold last_with_host.
  rewrite !rev_app_distr. cbn [rev]. rewrite <- app_assoc, !find_app.
  destruct (find_is_Some
              (fun x => bool_decide (get_host x = get_host e)) (rev l2) e')
    as [y ->]; [ now apply in_rev in Hin | | reflexivity ].
  now apply bool_decide_eq_true_2.
Qed.

Lemma dict_set_length {V : Type} (d : dict V) k v :
  (length (dict_set d k v) <= S (length d))%nat.
Proof.
  induction d as [ | [k' v'] r IH]; cbn; [ lia | ].
  destruct (decide (k' = k)); cbn; lia.
Qed.

Lemma populate_length l :
  (length (keys (__populate_data l)) <= length l)%nat.
Proof.
  unfold keys. rewrite List.length_map.
  induction l as [ | x l IH] using rev_ind; [ cbn; lia | ].
  rewrite populate_snoc, List.length_app. cbn [length].
  pose proof (dict_set_length (__populate_data l) (get_host x) x). lia.
Qed.

End StoreMore.

(** X11. What the store keeps: every key of the mapping built from a
    sequence of entries maps to an entry of that sequence whose host is
    the key. *)
Theorem build_keys_are_hosts l h e :
  dict_get (__hostdata (build l)) h = Some e -> get_host e = h /\ In e l.
Proof. apply populate_host. Qed.

Lemma build_keys_are_hosts_witness :
  get_host test_entry = lit "mytesthost"
  /\ In test_entry [entry_for "other"; test_entry].
Proof.
  apply (build_keys_are_hosts [entry_for "other"; test_entry]).
  vm_compute. reflexivity.
Defined.

(** X12. The lookup of a host in the store built from a sequence of
    entries goes by the last entry of the sequence with that host: it
    returns the username of that entry with its decoded password, or the
    exception of the decoding, and it raises [HostNotFoundException] when
    no entry has the host. *)
Theorem get_userpwd_build l hostname :
  fst (get_userpwd (build l) hostname)
  = match last_with_host hostname l with
    | Some entry => let! pwd := _deobfuscate entry in OK (get_user entry, pwd)
    | None => Raise HostNotFoundException
    end.
Proof.
  unfold get_userpwd. cbn [build __hostdata]. rewrite populate_find.
  now destruct (last_with_host hostname l).
Qed.

(** X13. An entry whose host comes again later in the sequence cannot be
    observed: without it every lookup returns the same and the listing
    prints the same. *)
Theorem shadowed_entry_unobservable l1 e l2 :
  (exists e', In e' l2 /\ get_host e' = get_host e) ->
  (forall hostname,
      fst (get_userpwd (build (l1 ++ e :: l2)) hostname)
      = fst (get_userpwd (build (l1 ++ l2)) hostname))
  /\ list_entries (build (l1 ++ e :: l2)) = list_entries (build (l1 ++ l2)).
Proof.
  intros Hsh. split.
  - intros hostname. unfold get_userpwd. cbn [build __hostdata].
    rewrite (populate_shadowed l1 e l2 hostname Hsh).
    now destruct (dict_get (__populate_data (l1 ++ l2)) hostname).
  - apply sorted_unique. cbn [build __hostdata].
    apply NoDup_Permutation; try apply populate_NoDup.
    intros h. rewrite !list_elem_of_In, !populate_keys.
    destruct Hsh as (e' & Hin & Hh).
    split; intros (x & Hx & <-).
    + apply in_app_or in Hx as [Hx | [<- | Hx]].
      * exists x. split; [ apply in_or_app; auto | reflexivity ].
      * exists e'. split; [ apply in_or_app; auto | assumption ].
      * exists x. split; [ apply in_or_app; auto | reflexivity ].
    + exists x. split; [ | reflexivity ].
      apply in_app_or in Hx as [Hx | Hx]; apply in_or_app; cbn; auto.
Qed.

Lemma shadowed_entry_unobservable_witness :
  list_entries (build ([] ++ bad_entry :: [entry_for "badhost"]))
  = list_entries (build ([] ++ [entry_for "badhost"])).
Proof.
  apply (shadowed_entry_unobservable [] bad_entry [entry_for "badhost"]).
  exists (entry_for "badhost"). split; [ now left | reflexivity ].
Defined.

(** X14. The listing of the store built from a sequence of entries prints
    every host of the sequence, each one once however many entries have
    it, and nothing else. *)
Theorem list_entries_build l :
  NoDup (list_entries (build l))
  /\ (forall h, In h (list_entries (build l))
                <-> exists e, In e l /\ get_host e = h)
  /\ (length (list_entries (build l)) <= length l)%nat.
Proof.
  pose proof (sorted_Permutation (keys (__hostdata (build l)))) as Hp.
  fold (list_entries (build l)) in Hp.
  split; [ | split ].
  - rewrite Hp. apply populate_NoDup.
  - intros h. rewrite <- populate_keys. cbn [build __hostdata] in Hp.
    split; apply Permutation_in; [ exact Hp | now symmetry ].
  - rewrite (Permutation_length Hp). apply populate_length.
Qed.

(** ** Properties of the reading of the file *)

Section Parsing.

Lemma last_text_snoc t cs c :
  last_text t (cs ++ [c])
  = if decide (tag c = t) then text c else last_text t cs.
Proof.
  unfold last_text. rewrite rev_app_distr. cbn [rev app find].
  destruct (decide (tag c = t)) as [E | E].
  - now rewrite bool_decide_eq_true_2.
  - now rewrite bool_decide_eq_false_2.
Qed.

Lemma last_text_absent t cs :
  (forall c, In c cs -> tag c <> t) -> last_text t cs = None.
Proof.
  induction cs as [ | c cs IH] using rev_ind; intros H; [ reflexivity | ].
  rewrite last_text_snoc, decide_False.
  - apply IH. intros x Hx. apply H, in_or_app. auto.
  - apply H, in_or_app. cbn. auto.
Qed.

Lemma last_text_only t cs c :
  filter (fun x => tag x = t) cs = [c] -> last_text t cs = text c.
Proof.
  revert c. induction cs as [ | x cs IH] using rev_ind; intros c;
    [ discriminate | ].
  rewrite filter_app, last_text_snoc. cbn [filter].
  rewrite filter_cons, filter_nil.
  destruct (decide (tag x = t)) as [E | E].
  - intros H. apply app_singleton in H as [[_ H] | [_ H]]; congruence.
  - rewrite app_nil_r. apply IH.
Qed.

(** The inner loop leaves the text of the last child of each tag. *)
Lemma scan_children cs :
  fold_left scan_child cs (None, None, None)
  = (last_text (lit "host") cs, last_text (lit "username") cs,
     last_text (lit "password") cs).
Proof.
  induction cs as [ | c cs IH] using rev_ind; [ reflexivity | ].
  rewrite fold_left_app, IH. cbn [fold_left]. unfold scan_child.
  now rewrite !last_text_snoc.
Qed.

Lemma append_entry_entry_of pwdentries e :
  tag e = lit "passwordEntry" ->
  append_entry pwdentries e = pwdentries ++ option_list (entry_of e).
Proof.
  intros Ht. unfold append_entry, entry_of.
  rewrite scan_children, decide_True by assumption.
  destruct (last_text (lit "host") (children e)),
    (last_text (lit "username") (children e)),
    (last_text (lit "password") (children e));
    cbn; now rewrite ?app_nil_r.
Qed.

Lemma entry_of_other e : tag e <> lit "passwordEntry" -> entry_of e = None.
Proof. intros H. unfold entry_of. now rewrite decide_False. Qed.

Lemma pwd_entry_list_snoc t x cs c :
  _get_pwd_entry_list (mkElement t x (cs ++ [c]))
  = _get_pwd_entry_list (mkElement t x cs) ++ option_list (entry_of c).
Proof.
  unfold _get_pwd_entry_list, collect_entries. cbv zeta. cbn [children].
  rewrite fold_left_app. cbn [fold_left].
  destruct (decide (tag c = lit "passwordEntry")) as [E | E].
  - rewrite fold_left_app. cbn [fold_left].
    now apply append_entry_entry_of.
  - rewrite (entry_of_other c E). cbn. now rewrite app_nil_r.
Qed.

Lemma pwd_entry_list_omap t x cs :
  _get_pwd_entry_list (mkElement t x cs) = omap entry_of cs.
Proof.
  induction cs as [ | c cs IH] using rev_ind; [ reflexivity | ].
  rewrite pwd_entry_list_snoc, IH, omap_app. cbn.
  now destruct (entry_of c).
Qed.

End Parsing.

(** X15. [_get_pwd_entry_list] returns, in the order of the document, one
    entry for every child of the root that is tagged passwordEntry and in
    which the last host child, the last username child and the last
    password child all have a text, made of these three texts. *)
Theorem get_pwd_entry_list_spec root :
  _get_pwd_entry_list root = omap entry_of (children root).
Proof. destruct root as [t x cs]. apply pwd_entry_list_omap. Qed.

(** X16. The list of the entries follows the document: the entries of two
    runs of children one after the other are the entries of the first run
    followed by those of the second, a child with another tag than
    passwordEntry can be left out, and there are no more entries than
    children. *)
Theorem get_pwd_entry_list_app t x :
  (forall cs1 cs2,
      _get_pwd_entry_list (mkElement t x (cs1 ++ cs2))
      = _get_pwd_entry_list (mkElement t x cs1)
        ++ _get_pwd_entry_list (mkElement t x cs2))
  /\ (forall cs1 c cs2,
        tag c <> lit "passwordEntry" ->
        _get_pwd_entry_list (mkElement t x (cs1 ++ c :: cs2))
        = _get_pwd_entry_list (mkElement t x (cs1 ++ cs2)))
  /\ (forall cs,
        (length (_get_pwd_entry_list (mkElement t x cs)) <= length cs)%nat).
Proof.
  split; [ | split ].
  - intros cs1 cs2. now rewrite !pwd_entry_list_omap, omap_app.
  - intros cs1 c cs2 Hc. rewrite !pwd_entry_list_omap, !omap_app.
    cbn. now rewrite (entry_of_other c Hc).
  - intros cs. rewrite pwd_entry_list_omap.
    induction cs as [ | c cs IH]; cbn; [ lia | ].
    destruct (entry_of c); cbn; lia.
Qed.

Lemma get_pwd_entry_list_app_witness :
  _get_pwd_entry_list test_document = [test_entry].
Proof.
  pose proof (proj1 (proj2 (get_pwd_entry_list_app (lit "viCredentials")
                              (Some [10; 32; 32])))
                [] test_version [test_element]) as H.
  cbn [app] in H. unfold test_document. rewrite H.
  - vm_compute. reflexivity.
  - vm_compute. discriminate.
Defined.

(** X17. A passwordEntry element with one host child, one username child
    and one password child, each with a text, gives the entry of the three
    texts, in whatever order the children come and whatever other
    children stand among them. *)
Theorem entry_of_complete e ch cu cp h u p :
  tag e = lit "passwordEntry" ->
  filter (fun c => tag c = lit "host") (children e) = [ch] ->
  filter (fun c => tag c = lit "username") (children e) = [cu] ->
  filter (fun c => tag c = lit "password") (children e) = [cp] ->
  text ch = Some h -> text cu = Some u -> text cp = Some p ->
  forall t x,
    _get_pwd_entry_list (mkElement t x [e]) = [mkPasswordEntry h u p].
Proof.
  intros Ht Hh Hu Hp Eh Eu Ep t x.
  rewrite pwd_entry_list_omap. cbn. unfold entry_of.
  rewrite decide_True by assumption.
  rewrite (last_text_only _ _ _ Hh), (last_text_only _ _ _ Hu),
    (last_text_only _ _ _ Hp), Eh, Eu, Ep.
  reflexivity.
Qed.

Lemma entry_of_complete_witness :
  _get_pwd_entry_list
    (mkElement (lit "viCredentials") None
       [mkElement (lit "passwordEntry") None
          [mkElement (lit "password") (Some test_password) [];
           mkElement (lit "comment") (Some (lit "lab")) [];
           mkElement (lit "username") (Some (lit "testuser")) [];
           mkElement (lit "host") (Some (lit "mytesthost")) []]])
  = [mkPasswordEntry (lit "mytesthost") (lit "testuser") test_password].
Proof.
  apply (entry_of_complete _
           (mkElement (lit "host") (Some (lit "mytesthost")) [])
           (mkElement (lit "username") (Some (lit "testuser")) [])
           (mkElement (lit "password") (Some test_password) []));
    vm_compute; reflexivity.
Defined.

(** X18. A passwordEntry element that lacks a host child, a username child
    or a password child gives no entry and no error: the list is the one
    of the document without the element. *)
Theorem entry_without_field_skipped t x cs1 e cs2 field :
  In field [lit "host"; lit "username"; lit "password"] ->
  (forall c, In c (children e) -> tag c <> field) ->
  _get_pwd_entry_list (mkElement t x (cs1 ++ e :: cs2))
  = _get_pwd_entry_list (mkElement t x (cs1 ++ cs2)).
Proof.
  intros Hf Hc. rewrite !pwd_entry_list_omap, !omap_app. cbn.
  assert (E : entry_of e = None); [ | now rewrite E ].
  unfold entry_of. destruct (decide (tag e = lit "passwordEntry"));
    [ | reflexivity ].
  pose proof (last_text_absent field (children e) Hc) as Hn.
  destruct Hf as [<- | [<- | [<- | []]]]; rewrite Hn;
    repeat (destruct (last_text _ _)); reflexivity.
Qed.

Lemma entry_without_field_skipped_witness :
  _get_pwd_entry_list
    (mkElement (lit "viCredentials") None
       ([] ++ mkElement (lit "passwordEntry") None
                [mkElement (lit "host") (Some (lit "nouser")) [];
                 mkElement (lit "password") (Some test_password) []]
           :: [test_element]))
  = _get_pwd_entry_list
      (mkElement (lit "viCredentials") None ([] ++ [test_element])).
Proof.
  apply (entry_without_field_skipped _ _ [] _ [test_element] (lit "username")).
  - right. now left.
  - intros c [<- | [<- | []]]; vm_compute; discriminate.
Defined.


(** ** Properties of the construction of the store *)

Section Init.

Lemma choose_path_environ w v :
  dict_get (os_environ w) (lit "VI_CREDSTORE") = Some v ->
  choose_path w None = Done v.
Proof. intros H. unfold choose_path, environ_get. now rewrite H. Qed.

Lemma init_done w path obj :
  __init__ w path = Done obj ->
  choose_path w path = Done (__path obj)
  /\ os_path_exists w (__path obj) = true
  /\ Et_parse w (__path obj) = Some (__root obj)
  /\ __data obj = build (_get_pwd_entry_list (__root obj)).
Proof.
  unfold __init__.
  destruct (choose_path w path) as [p | ]; [ | discriminate ].
  destruct (os_path_exists w p) eqn:Hex; [ | discriminate ].
  destruct (Et_parse w p) as [root | ] eqn:Hp; [ | discriminate ].
  intros [= <-]. cbn. auto.
Qed.

Lemma choose_path_exn w path e :
  choose_path w path = Failed e ->
  (exists key, e = KeyError key) \/ (exists message, e = Exception message).
Proof.
  unfold choose_path, environ_get. destruct path; [ discriminate | ].
  destruct (dict_get (os_environ w) (lit "VI_CREDSTORE")); [ discriminate | ].
  destruct (decide (_platform w = lit "linux" \/ _platform w = lit "linux2")).
  - destruct (dict_get (os_environ w) (lit "HOME")); [ discriminate | ].
    intros [= <-]. left. eauto.
  - destruct (decide (_platform w = lit "win32")).
    + destruct (dict_get (os_environ w) (lit "APPDATA")); [ discriminate | ].
      intros [= <-]. left. eauto.
    + intros [= <-]. right. eauto.
Qed.

End Init.

(** X19. The order in which [__init__] chooses its path.  A path given to
    it makes the environment and the platform irrelevant; without one,
    VI_CREDSTORE stands for it on every platform; without either, HOME on
    linux and APPDATA on win32 give the directory of the file. *)
Theorem init_path_precedence :
  (forall env pf env' pf' ex parse p,
      __init__ (mkWorld env pf ex parse) (Some p)
      = __init__ (mkWorld env' pf' ex parse) (Some p))
  /\ (forall w v,
        dict_get (os_environ w) (lit "VI_CREDSTORE") = Some v ->
        __init__ w None = __init__ w (Some v))
  /\ (forall w home,
        dict_get (os_environ w) (lit "VI_CREDSTORE") = None ->
        _platform w = lit "linux" \/ _platform w = lit "linux2" ->
        dict_get (os_environ w) (lit "HOME") = Some home ->
        __init__ w None = __init__ w (Some (home ++ FILE_PATH_UNIX)))
  /\ (forall w appdata,
        dict_get (os_environ w) (lit "VI_CREDSTORE") = None ->
        _platform w = lit "win32" ->
        dict_get (os_environ w) (lit "APPDATA") = Some appdata ->
        __init__ w None = __init__ w (Some (appdata ++ FILE_PATH_WIN))).
Proof.
  split; [ reflexivity | ]. split; [ | split ].
  - intros w v H. unfold __init__. now rewrite (choose_path_environ w v H).
  - intros w home Hv Hpf Hh. unfold __init__, choose_path, environ_get.
    now rewrite Hv, decide_True, Hh by assumption.
  - intros w appdata Hv Hpf Ha. unfold __init__, choose_path, environ_get.
    rewrite Hv, decide_False, decide_True, Ha; [ reflexivity | assumption | ].
    rewrite Hpf. intros [H | H]; vm_compute in H; discriminate H.
Qed.

Lemma init_path_precedence_witness :
  __init__ test_world None = __init__ test_world (Some (lit "mycredentials.xml")).
Proof.
  apply (proj1 (proj2 init_path_precedence) test_world).
  vm_compute. reflexivity.
Defined.

(** X20. [__init__] raises [NoCredentialsFileFound] exactly when it has
    chosen a path and no file exists there, and the message names the
    path; with a path given, that is when the path does not exist. *)
Theorem init_no_file w path message :
  __init__ w path = Failed (NoCredentialsFileFound message)
  <-> exists p,
        choose_path w path = Done p
        /\ os_path_exists w p = false
        /\ message = (lit "Credential filename [" ++ p) ++ lit "] doesn't exist!".
Proof.
  unfold __init__. split.
  - destruct (choose_path w path) as [p | e] eqn:Hc.
    + destruct (os_path_exists w p) eqn:Hex.
      * destruct (Et_parse w p); discriminate.
      * intros [= <-]. exists p. auto.
    + intros [= ->].
      apply choose_path_exn in Hc as [[key Hc] | [m Hc]]; discriminate Hc.
  - intros (p & -> & -> & ->). reflexivity.
Qed.

Lemma init_no_file_witness :
  __init__ test_world (Some (lit "anyfile.xml"))
  = Failed (NoCredentialsFileFound
              ((lit "Credential filename [" ++ lit "anyfile.xml")
               ++ lit "] doesn't exist!")).
Proof.
  apply (proj2 (init_no_file test_world (Some (lit "anyfile.xml")) _)).
  exists (lit "anyfile.xml"). repeat split. 
Defined.

(** X21. Without a path and without VI_CREDSTORE the platform decides, and
    no file is looked at when it fails: on a platform other than linux,
    linux2 and win32 [__init__] raises [Exception] with the name of the
    platform, on linux without HOME and on win32 without APPDATA it raises
    [KeyError]. *)
Theorem init_platform w :
  dict_get (os_environ w) (lit "VI_CREDSTORE") = None ->
  (_platform w <> lit "linux" -> _platform w <> lit "linux2" ->
   _platform w <> lit "win32" ->
   __init__ w None
   = Failed (Exception
               ((lit "Unsupported platform! (" ++ _platform w) ++ lit ")")))
  /\ (_platform w = lit "linux" \/ _platform w = lit "linux2" ->
      dict_get (os_environ w) (lit "HOME") = None ->
      __init__ w None = Failed (KeyError (lit "HOME")))
  /\ (_platform w = lit "win32" ->
      dict_get (os_environ w) (lit "APPDATA") = None ->
      __init__ w None = Failed (KeyError (lit "APPDATA"))).
Proof.
  intros Hv. unfold __init__, choose_path, environ_get. rewrite Hv.
  split; [ | split ].
  - intros H1 H2 H3. now rewrite !decide_False by tauto.
  - intros Hpf Hh. now rewrite decide_True, Hh by assumption.
  - intros Hpf Ha. rewrite decide_False, decide_True, Ha;
      [ reflexivity | assumption | ].
    rewrite Hpf. intros [H | H]; vm_compute in H; discriminate H.
Qed.

Lemma init_platform_witness :
  __init__ (mkWorld [] (lit "darwin") (fun _ => true) (fun _ => Some test_document))
    None
  = Failed (Exception ((lit "Unsupported platform! (" ++ lit "darwin") ++ lit ")")).
Proof.
  apply (proj1 (init_platform
                  (mkWorld [] (lit "darwin") (fun _ => true)
                     (fun _ => Some test_document)) eq_refl));
    vm_compute; discriminate.
Defined.

(** X22. From the document to the lookup: on the instance that [__init__]
    leaves, the file exists, its parsed root is kept, and the lookup of a
    host goes by the last complete passwordEntry element of the root whose
    host text is that host. *)
Theorem init_lookup w path obj hostname :
  __init__ w path = Done obj ->
  os_path_exists w (__path obj) = true
  /\ Et_parse w (__path obj) = Some (__root obj)
  /\ fst (get_userpwd (__data obj) hostname)
     = match last_with_host hostname (omap entry_of (children (__root obj))) with
       | Some entry => let! pwd := _deobfuscate entry in OK (get_user entry, pwd)
       | None => Raise HostNotFoundException
       end.
Proof.
  intros H. apply init_done in H as (_ & Hex & Hp & Hd).
  split; [ exact Hex | ]. split; [ exact Hp | ].
  rewrite Hd. unfold get_userpwd. cbn [build __hostdata].
  rewrite populate_find.
  destruct (__root obj) as [t x cs]. rewrite pwd_entry_list_omap. cbn [children].
  now destruct (last_with_host hostname (omap entry_of cs)).
Qed.

Lemma init_lookup_witness :
  fst (get_userpwd (__data test_object) (lit "mytesthost"))
  = OK (lit "testuser", lit "testpassword").
Proof.
  destruct (init_lookup test_world (Some (lit "mycredentials.xml")) test_object
              (lit "mytesthost") eq_refl) as (_ & _ & H).
  rewrite H. vm_compute. reflexivity.
Defined.

(** ** Properties of the sample script *)





(** X25. Inside a passwordEntry element the last child of a tag decides:
    when the last child is a host, username or password child without a
    text, the element gives no entry, whatever texts the children before
    it have. *)
Theorem empty_last_child_voids_entry t x y cs c :
  In (tag c) [lit "host"; lit "username"; lit "password"] ->
  text c = None ->
  _get_pwd_entry_list
    (mkElement t x [mkElement (lit "passwordEntry") y (cs ++ [c])])
  = [].
Proof.
  intros Hc Ht. rewrite pwd_entry_list_omap. cbn. unfold entry_of.
  cbn [tag children]. rewrite decide_True by reflexivity.
  rewrite !last_text_snoc, Ht.
  destruct Hc as [<- | [<- | [<- | []]]].
  - now rewrite decide_True.
  - rewrite (decide_True (P := lit "username" = lit "username")) by reflexivity.
    now destruct (if decide _ then _ else _).
  - rewrite (decide_True (P := lit "password" = lit "password")) by reflexivity.
    now repeat destruct (if decide _ then _ else _).
Qed.

Lemma empty_last_child_voids_entry_witness :
  _get_pwd_entry_list
    (mkElement (lit "viCredentials") None
       [mkElement (lit "passwordEntry") None
          ([mkElement (lit "host") (Some (lit "mytesthost")) [];
            mkElement (lit "username") (Some (lit "testuser")) [];
            mkElement (lit "password") (Some test_password) []]
           ++ [mkElement (lit "host") None []])])
  = [].
Proof.
  apply empty_last_child_voids_entry; [ now left | reflexivity ].
Defined.
